(** * TLCounter: the counting gate of the sample task system

    Shallow embedding of [samples/sample_task_system/TLCounter.h] (the
    portable [std::mutex] / [std::condition_variable] branch; the Windows
    branch has the same control flow with [CRITICAL_SECTION] and
    [CONDITION_VARIABLE]).

    - The two fields are [int32_t]; they are modelled as [Z] with the
      two's-complement wrap-around written out ([int32]).  ISO C++ leaves
      signed overflow undefined; the wrap is what the targeted compilers
      emit for [counter++], [counter--], [counter += n], [counter -= n].
    - Every method body runs under the mutex from its first to its last
      statement, except inside [condVar.wait], which releases the mutex,
      parks the thread and re-acquires the mutex on wake-up.  A method is
      therefore a sequence of critical sections; each one is a computation
      in the monad [Crit], which threads the gate and logs the
      synchronisation events it performs.
    - [wait_call] runs one wait call against the calls other threads make
      while it sleeps; [step] is the interleaving semantics of a pool of
      threads sharing one gate, with the condition variable's choice of the
      woken thread and spurious wake-ups left nondeterministic. *)

From Stdlib Require Import ZArith Lia Bool Permutation.
From stdpp Require Import base list.

Open Scope Z_scope.

(** ** 32-bit signed integers *)

Definition INT32_MIN : Z := -2147483648.
Definition INT32_MAX : Z := 2147483647.

Definition int32 (z : Z) : Z := (z + 2147483648) mod 4294967296 - 2147483648.

Definition in_int32 (z : Z) : Prop := INT32_MIN <= z <= INT32_MAX.

(** ** The gate *)

Record TLCounter := mkTLCounter {
  counter : Z;
  numWaiters : Z
}.

(** [int32_t counter = 0; int32_t numWaiters = 0;] and the empty constructor. *)
Definition TLCounter_new : TLCounter := mkTLCounter 0 0.

(** Synchronisation events a critical section performs, in program order. *)
Inductive event :=
| Lock        (* unique_lock lock(mutex) *)
| Unlock      (* ~unique_lock at the end of the scope *)
| CvWait      (* condVar.wait(lock) *)
| NotifyOne   (* condVar.notify_one() *)
| NotifyAll.  (* condVar.notify_all() *)

Global Instance event_eq_dec : EqDecision event.
Proof. solve_decision. Defined.

Definition is_notify (e : event) : bool :=
  match e with NotifyOne | NotifyAll => true | _ => false end.

Definition is_sleep (e : event) : bool :=
  match e with CvWait => true | _ => false end.

(** Number of wakes issued, number of times parked. *)
Fixpoint count_if {A} (p : A -> bool) (l : list A) : nat :=
  match l with
  | [] => 0%nat
  | x :: l' => ((if p x then 1 else 0) + count_if p l')%nat
  end.

Definition wakes (tr : list event) : nat := count_if is_notify tr.
Definition sleeps (tr : list event) : nat := count_if is_sleep tr.

(** ** Critical sections: state of the gate plus event log *)

Definition Crit (A : Type) : Type := TLCounter -> A * TLCounter * list event.

Global Instance crit_ret : MRet Crit := fun A (a : A) g => (a, g, []).

Global Instance crit_bind : MBind Crit :=
  fun A B (k : A -> Crit B) (m : Crit A) g =>
    let '(a, g1, t1) := m g in
    let '(b, g2, t2) := k a g1 in
    (b, g2, t1 ++ t2).

Definition emit (e : event) : Crit unit := fun g => (tt, g, [e]).
Definition read_counter : Crit Z := fun g => (counter g, g, []).
Definition read_numWaiters : Crit Z := fun g => (numWaiters g, g, []).
Definition write_counter (c : Z) : Crit unit :=
  fun g => (tt, mkTLCounter (int32 c) (numWaiters g), []).
Definition write_numWaiters (n : Z) : Crit unit :=
  fun g => (tt, mkTLCounter (counter g) (int32 n), []).
Definition when (b : bool) (m : Crit unit) : Crit unit := if b then m else mret tt.

Definition result {A} (r : A * TLCounter * list event) : A := fst (fst r).
Definition gate_of {A} (r : A * TLCounter * list event) : TLCounter := snd (fst r).
Definition trace {A} (r : A * TLCounter * list event) : list event := snd r.

Section Policy.

(** [#define TL_WAKE_ONE 1] in the source; the other branch of every
    [#if TL_WAKE_ONE] is kept, so the flag is a parameter. *)
Variable TL_WAKE_ONE : bool.

(** The [#if TL_WAKE_ONE ... #else ... #endif] inside Decrement and Subtract. *)
Definition notify_ev : event := if TL_WAKE_ONE then NotifyOne else NotifyAll.

Definition notify_waiters : Crit unit := emit notify_ev.

(** The [#if TL_WAKE_ONE if (numWaiters > 0) notify_one #endif] of the waits. *)
Definition relay : Crit unit :=
  if TL_WAKE_ONE
  then (n ← read_numWaiters; when (0 <? n) (emit NotifyOne))
  else mret tt.

(** The events of the relay when the gate is [g]. *)
Definition relay_trace (g : TLCounter) : list event := trace (relay g).

(** *** Mutating operations *)

Definition Increment : Crit Z :=
  emit Lock;;
  c ← read_counter;
  write_counter (c + 1);;
  r ← read_counter;
  emit Unlock;;
  mret r.

Definition Decrement : Crit Z :=
  emit Lock;;
  c ← read_counter;
  write_counter (c - 1);;
  c' ← read_counter;
  when (c' <=? 0) notify_waiters;;
  r ← read_counter;
  emit Unlock;;
  mret r.

Definition Add (count : Z) : Crit Z :=
  emit Lock;;
  c ← read_counter;
  write_counter (c + count);;
  r ← read_counter;
  emit Unlock;;
  mret r.

Definition Subtract (count : Z) : Crit Z :=
  emit Lock;;
  c ← read_counter;
  write_counter (c - count);;
  c' ← read_counter;
  when (c' <=? 0) notify_waiters;;
  r ← read_counter;
  emit Unlock;;
  mret r.

Inductive mutator :=
| OpIncrement
| OpDecrement
| OpAdd (count : Z)
| OpSubtract (count : Z).

Definition call_mutator (op : mutator) : Crit Z :=
  match op with
  | OpIncrement => Increment
  | OpDecrement => Decrement
  | OpAdd n => Add n
  | OpSubtract n => Subtract n
  end.

(** The argument a caller can pass is an [int32_t]. *)
Definition mutator_ok (op : mutator) : Prop :=
  match op with
  | OpAdd n | OpSubtract n => in_int32 n
  | _ => True
  end.

(** A serialized sequence of mutating calls (the mutex orders them). *)
Fixpoint run_mutators (ops : list mutator) (g : TLCounter) : TLCounter :=
  match ops with
  | [] => g
  | op :: ops' => run_mutators ops' (gate_of (call_mutator op g))
  end.

(** Signed contribution of a call to the balance. *)
Definition delta (op : mutator) : Z :=
  match op with
  | OpIncrement => 1
  | OpDecrement => -1
  | OpAdd n => n
  | OpSubtract n => - n
  end.

Fixpoint net_delta (ops : list mutator) : Z :=
  match ops with
  | [] => 0
  | op :: ops' => delta op + net_delta ops'
  end.

(** *** Wait operations *)

Inductive wait_fn := FnWaitUntilZero | FnWaitOneWakeup.

(** How a critical section of a wait call ends: parked inside
    [condVar.wait] (with the current value of the local [didWait]), or
    returned to the caller with [didWait]. *)
Inductive outcome :=
| Sleeping (didWait : bool)
| Returned (didWait : bool).

(** [numWaiters++; condVar.wait(lock);] up to the point the thread parks. *)
Definition park (didWait : bool) : Crit outcome :=
  n ← read_numWaiters;
  write_numWaiters (n + 1);;
  emit CvWait;;
  mret (Sleeping didWait).

(** [numWaiters--; didWait = true;] once [condVar.wait] has returned. *)
Definition unpark : Crit bool :=
  n ← read_numWaiters;
  write_numWaiters (n - 1);;
  mret true.

(** The code after the loop / the [if]: relay, unlock, return. *)
Definition leave (didWait : bool) : Crit outcome :=
  relay;;
  emit Unlock;;
  mret (Returned didWait).

(** [while (counter > 0) { ... }] from its test. *)
Definition WaitUntilZero_test (didWait : bool) : Crit outcome :=
  c ← read_counter;
  if 0 <? c then park didWait else leave didWait.

Definition WaitUntilZero_enter : Crit outcome :=
  emit Lock;;
  WaitUntilZero_test false.

Definition WaitUntilZero_wakeup : Crit outcome :=
  didWait ← unpark;
  WaitUntilZero_test didWait.

(** [if (counter > 0) { ... }]: tested once. *)
Definition WaitOneWakeup_enter : Crit outcome :=
  emit Lock;;
  c ← read_counter;
  if 0 <? c then park false else leave false.

Definition WaitOneWakeup_wakeup : Crit outcome :=
  didWait ← unpark;
  leave didWait.

Definition wait_enter (f : wait_fn) : Crit outcome :=
  match f with
  | FnWaitUntilZero => WaitUntilZero_enter
  | FnWaitOneWakeup => WaitOneWakeup_enter
  end.

Definition wait_wakeup (f : wait_fn) : Crit outcome :=
  match f with
  | FnWaitUntilZero => WaitUntilZero_wakeup
  | FnWaitOneWakeup => WaitOneWakeup_wakeup
  end.

(** One wake-up of a parked caller: the others' calls, then the section
    that starts inside [condVar.wait]. *)
Definition wake_step (f : wait_fn) (others : list mutator)
    (g : TLCounter) (tr : list event) : outcome * TLCounter * list event :=
  let '(o, g', tr') := wait_wakeup f (run_mutators others g) in
  (o, g', tr ++ tr').

(** One wait call seen from the calling thread.  [env] lists, for each
    sleep in turn, the mutating calls other threads complete between the
    moment the caller parks and the moment it holds the mutex again; one
    element of [env] is one wake-up (notified or spurious).  When [env] is
    used up and the caller is parked, it stays [Sleeping]. *)
Fixpoint wait_resume (f : wait_fn) (env : list (list mutator))
    (st : outcome * TLCounter * list event) : outcome * TLCounter * list event :=
  match st, env with
  | (Sleeping _, g, tr), others :: env' =>
      wait_resume f env' (wake_step f others g tr)
  | _, _ => st
  end.

Definition wait_call (f : wait_fn) (env : list (list mutator)) : Crit outcome :=
  fun g => wait_resume f env (wait_enter f g).

Definition WaitUntilZero := wait_call FnWaitUntilZero.
Definition WaitOneWakeup := wait_call FnWaitOneWakeup.

(** The mutating calls of [env] a wait call has consumed when it stops:
    those of the sleeps it really went through. *)
Fixpoint consumed (f : wait_fn) (env : list (list mutator))
    (st : outcome * TLCounter * list event) : list mutator :=
  match st, env with
  | (Sleeping _, g, tr), others :: env' =>
      others ++ consumed f env' (wake_step f others g tr)
  | _, _ => []
  end.

(** What is known of a wait call [f] entered at gate [g0] when it has
    stopped at [st] after the others' calls [ms]: its log is the lock, one
    [CvWait] per sleep and, once returned, the relay and the unlock. *)
Definition call_inv (f : wait_fn) (g0 : TLCounter) (ms : list mutator)
    (st : outcome * TLCounter * list event) : Prop :=
  let '(o, g, tr) := st in
  exists k : nat,
    counter g = counter (run_mutators ms g0) /\
    match o with
    | Sleeping d =>
        tr = Lock :: replicate k CvWait /\
        (1 <= k)%nat /\
        d = bool_decide (2 <= k)%nat /\
        numWaiters g = int32 (numWaiters g0 + 1) /\
        0 < counter g /\
        (f = FnWaitOneWakeup -> k = 1%nat)
    | Returned d =>
        tr = Lock :: replicate k CvWait ++ relay_trace g ++ [Unlock] /\
        d = bool_decide (1 <= k)%nat /\
        numWaiters g = (if d then int32 (numWaiters g0) else numWaiters g0) /\
        (f = FnWaitUntilZero -> counter g <= 0) /\
        (f = FnWaitOneWakeup -> (k <= 1)%nat)
    end.

(** ** A pool of threads sharing the gate *)

(** What a thread of the pool is doing with respect to the gate. *)
Inductive tstate :=
| Idle                                      (* never called a wait *)
| Parked (f : wait_fn) (didWait : bool)     (* blocked inside condVar.wait *)
| Woken (f : wait_fn) (didWait : bool)      (* woken, has to re-acquire the mutex *)
| Finished (f : wait_fn) (didWait : bool).  (* its wait call returned didWait *)

Definition is_parked (t : tstate) : bool :=
  match t with Parked _ _ => true | _ => false end.

Definition is_woken (t : tstate) : bool :=
  match t with Woken _ _ => true | _ => false end.

(** Between [numWaiters++] and [numWaiters--]. *)
Definition in_wait (t : tstate) : bool := is_parked t || is_woken t.

Definition can_call (t : tstate) : bool :=
  match t with Idle | Finished _ _ => true | _ => false end.

Definition after (f : wait_fn) (o : outcome) : tstate :=
  match o with
  | Sleeping d => Parked f d
  | Returned d => Finished f d
  end.

Definition wake (t : tstate) : tstate :=
  match t with Parked f d => Woken f d | _ => t end.

Record World := mkWorld {
  gate : TLCounter;
  pool : list tstate
}.

Definition some_parked (p : list tstate) : Prop :=
  exists j f d, p !! j = Some (Parked f d).

Definition some_woken (p : list tstate) : Prop :=
  exists j f d, p !! j = Some (Woken f d).

(** Thread [j] is inside a call of [f]: parked or woken. *)
Definition blocked_in (f : wait_fn) (p : list tstate) (j : nat) : Prop :=
  exists d, p !! j = Some (Parked f d) \/ p !! j = Some (Woken f d).

(** Number of threads inside a wait call. *)
Definition waiting (p : list tstate) : nat := count_if in_wait p.

Definition init (N : nat) : World := mkWorld TLCounter_new (replicate N Idle).

(** The condition variable: [notify_one] unblocks one of the threads
    blocked in [wait], if there is any; [notify_all] unblocks all of them. *)
Inductive cv_event : event -> list tstate -> list tstate -> Prop :=
| cv_notify_one p j f d :
    p !! j = Some (Parked f d) ->
    cv_event NotifyOne p (<[j := Woken f d]> p)
| cv_notify_one_lost p :
    ~ some_parked p ->
    cv_event NotifyOne p p
| cv_notify_all p :
    cv_event NotifyAll p (wake <$> p)
| cv_other e p :
    is_notify e = false ->
    cv_event e p p.

Inductive deliver : list event -> list tstate -> list tstate -> Prop :=
| deliver_nil p : deliver [] p p
| deliver_cons e tr p p1 p2 :
    cv_event e p p1 -> deliver tr p1 p2 -> deliver (e :: tr) p p2.

Inductive label :=
| LMut (op : mutator)               (* a running thread completes a mutating call *)
| LCall (i : nat) (f : wait_fn)     (* thread i calls f and runs to its first stop *)
| LResume (i : nat)                 (* woken thread i gets the mutex and goes on *)
| LSpurious (i : nat).              (* parked thread i wakes without a notification *)

Inductive step : World -> label -> World -> Prop :=
| step_mut w op p' :
    mutator_ok op ->
    deliver (trace (call_mutator op (gate w))) (pool w) p' ->
    step w (LMut op) (mkWorld (gate_of (call_mutator op (gate w))) p')
| step_call w i f t p' :
    pool w !! i = Some t ->
    can_call t = true ->
    deliver (trace (wait_enter f (gate w)))
            (<[i := after f (result (wait_enter f (gate w)))]> (pool w)) p' ->
    step w (LCall i f) (mkWorld (gate_of (wait_enter f (gate w))) p')
| step_resume w i f d p' :
    pool w !! i = Some (Woken f d) ->
    deliver (trace (wait_wakeup f (gate w)))
            (<[i := after f (result (wait_wakeup f (gate w)))]> (pool w)) p' ->
    step w (LResume i) (mkWorld (gate_of (wait_wakeup f (gate w))) p')
| step_spurious w i f d :
    pool w !! i = Some (Parked f d) ->
    step w (LSpurious i) (mkWorld (gate w) (<[i := Woken f d]> (pool w))).

(** Executions all of whose states after the first satisfy [P]. *)
Inductive exec (P : World -> Prop) : World -> list label -> World -> Prop :=
| exec_refl w : exec P w [] w
| exec_step w ls w1 l w2 :
    exec P w ls w1 -> step w1 l w2 -> P w2 -> exec P w (ls ++ [l]) w2.

Definition reachable (N : nat) (w : World) : Prop :=
  exists ls, exec (fun _ => True) (init N) ls w.

Definition drained (w : World) : Prop := counter (gate w) <= 0.

Definition is_resume (l : label) : Prop :=
  match l with LResume _ => True | _ => False end.

(** [numWaiters] counts the threads of an [N]-thread pool that are inside
    a wait call. *)
Definition accounted (N : nat) (w : World) : Prop :=
  length (pool w) = N /\ numWaiters (gate w) = Z.of_nat (waiting (pool w)).

(** While the gate is drained the wake chain is alive: under wake-one a
    parked thread implies a woken one, under wake-all nobody is parked. *)
Definition chain_ok (w : World) : Prop :=
  if TL_WAKE_ONE
  then some_parked (pool w) -> some_woken (pool w)
  else ~ some_parked (pool w).

(** The gate is drained, the accounting holds and the wake chain is alive. *)
Definition live (N : nat) (w : World) : Prop :=
  accounted N w /\ chain_ok w /\ drained w.


End Policy.

Arguments reachable TL_WAKE_ONE N w : simpl never.

(** ** Further notions used by the properties below *)

(** Number of threads other than [i] inside a wait call. *)
Definition others_waiting (p : list tstate) (i : nat) : nat :=
  waiting (<[i:=Idle]> p).

(** Number of threads blocked inside [condVar.wait]. *)
Definition parked (p : list tstate) : nat := count_if is_parked p.

(** Thread [j] is parked in [p] and woken in [p']. *)
Definition woken_between (p p' : list tstate) (j : nat) : Prop :=
  exists f d, p !! j = Some (Parked f d) /\ p' !! j = Some (Woken f d).

(** Every wake-up of [env] finds the counter positive: after the calls the
    other threads made during each sleep, the counter is still [> 0]. *)
Fixpoint premature (wo : bool) (env : list (list mutator)) (g : TLCounter) : Prop :=
  match env with
  | [] => True
  | others :: env' =>
      0 < counter (run_mutators wo others g) /\
      premature wo env' (run_mutators wo others g)
  end.

(** The use the comments of the class describe: no call makes the
    counter leave [int32_t], and Add is given amounts of work to add. *)
Definition well_used (w : World) (l : label) : Prop :=
  match l with
  | LMut op =>
      in_int32 (counter (gate w) + delta op) /\
      (forall n, op = OpAdd n -> 0 <= n)
  | _ => True
  end.

(** Executions all of whose steps are [well_used]. *)
Inductive exec_well (wo : bool) : World -> World -> Prop :=
| exec_well_refl w : exec_well wo w w
| exec_well_step w w1 l w2 :
    exec_well wo w w1 -> well_used w1 l -> step wo w1 l w2 -> exec_well wo w w2.

(** ** The Windows branch ([#ifdef _MSC_VER])

    The same class over [CRITICAL_SECTION] and [CONDITION_VARIABLE]:
    [EnterCriticalSection] is logged as [Lock], [LeaveCriticalSection] as
    [Unlock], [SleepConditionVariableCS] as [CvWait],
    [WakeConditionVariable] as [NotifyOne] and
    [WakeAllConditionVariable] as [NotifyAll]. *)
Module Win.
Section Policy.
Variable TL_WAKE_ONE : bool.

(** The constructor body, run on whatever the fields hold:
    [counter = 0; numWaiters = 0;]. *)
Definition TLCounter_ctor : Crit unit :=
  write_counter 0;;
  write_numWaiters 0.

Definition wake_waiters : Crit unit :=
  if TL_WAKE_ONE then emit NotifyOne else emit NotifyAll.

Definition relay : Crit unit :=
  if TL_WAKE_ONE
  then (n ← read_numWaiters; when (0 <? n) (emit NotifyOne))
  else mret tt.

Definition Increment : Crit Z :=
  emit Lock;;
  c ← read_counter;
  write_counter (c + 1);;
  lcounter ← read_counter;
  emit Unlock;;
  mret lcounter.

Definition Decrement : Crit Z :=
  emit Lock;;
  c ← read_counter;
  write_counter (c - 1);;
  lcounter ← read_counter;
  when (lcounter <=? 0) wake_waiters;;
  emit Unlock;;
  mret lcounter.

Definition Add (count : Z) : Crit Z :=
  emit Lock;;
  c ← read_counter;
  write_counter (c + count);;
  lcounter ← read_counter;
  emit Unlock;;
  mret lcounter.

Definition Subtract (count : Z) : Crit Z :=
  emit Lock;;
  c ← read_counter;
  write_counter (c - count);;
  lcounter ← read_counter;
  when (lcounter <=? 0) wake_waiters;;
  emit Unlock;;
  mret lcounter.

(** [numWaiters++; SleepConditionVariableCS(...)] up to the point the
    thread parks, and [numWaiters--; didWait = true;] after it. *)
Definition park (didWait : bool) : Crit outcome :=
  n ← read_numWaiters;
  write_numWaiters (n + 1);;
  emit CvWait;;
  mret (Sleeping didWait).

Definition unpark : Crit bool :=
  n ← read_numWaiters;
  write_numWaiters (n - 1);;
  mret true.

Definition leave (didWait : bool) : Crit outcome :=
  relay;;
  emit Unlock;;
  mret (Returned didWait).

Definition WaitUntilZero_test (didWait : bool) : Crit outcome :=
  c ← read_counter;
  if 0 <? c then park didWait else leave didWait.

Definition WaitUntilZero_enter : Crit outcome :=
  emit Lock;;
  WaitUntilZero_test false.

Definition WaitUntilZero_wakeup : Crit outcome :=
  didWait ← unpark;
  WaitUntilZero_test didWait.

Definition WaitOneWakeup_enter : Crit outcome :=
  emit Lock;;
  c ← read_counter;
  if 0 <? c then park false else leave false.

Definition WaitOneWakeup_wakeup : Crit outcome :=
  didWait ← unpark;
  leave didWait.

End Policy.
End Win.

(** * Properties *)

(** ** Arithmetic of [int32] *)

Lemma int32_range z : in_int32 (int32 z).
Proof.
  unfold in_int32, int32, INT32_MIN, INT32_MAX.
  pose proof (Z.mod_pos_bound (z + 2147483648) 4294967296); lia.
Qed.

Lemma int32_id z : in_int32 z -> int32 z = z.
Proof.
  unfold in_int32, int32, INT32_MIN, INT32_MAX; intros H.
  rewrite Z.mod_small; lia.
Qed.

Lemma int32_add_l a b : int32 (int32 a + b) = int32 (a + b).
Proof.
  unfold int32.
  replace ((a + 2147483648) mod 4294967296 - 2147483648 + b + 2147483648)
    with ((a + 2147483648) mod 4294967296 + b) by lia.
  rewrite Zplus_mod_idemp_l. f_equal. f_equal. lia.
Qed.

Lemma int32_sub_l a b : int32 (int32 a - b) = int32 (a - b).
Proof. rewrite <- !Z.add_opp_r. apply int32_add_l. Qed.

Lemma int32_idem z : int32 (int32 z) = int32 z.
Proof. apply int32_id, int32_range. Qed.

(** ** The critical sections, computed *)

Section Mutators.
Variable wo : bool.

Lemma Increment_eq g :
  Increment g =
  (int32 (counter g + 1), mkTLCounter (int32 (counter g + 1)) (numWaiters g),
   [Lock; Unlock]).
Proof. reflexivity. Qed.

Lemma Add_eq n g :
  Add n g =
  (int32 (counter g + n), mkTLCounter (int32 (counter g + n)) (numWaiters g),
   [Lock; Unlock]).
Proof. reflexivity. Qed.

Lemma Subtract_eq n g :
  Subtract wo n g =
  (int32 (counter g - n), mkTLCounter (int32 (counter g - n)) (numWaiters g),
   Lock :: (if int32 (counter g - n) <=? 0 then [notify_ev wo] else []) ++ [Unlock]).
Proof.
  unfold Subtract, notify_waiters, when, mbind, crit_bind,
    read_counter, write_counter, emit, mret, crit_ret; cbn.
  destruct (int32 (counter g - n) <=? 0); reflexivity.
Qed.

Lemma Decrement_eq g : Decrement wo g = Subtract wo 1 g.
Proof. reflexivity. Qed.

Lemma call_mutator_eq op g :
  let c := int32 (counter g + delta op) in
  call_mutator wo op g =
  (c, mkTLCounter c (numWaiters g),
   Lock :: (match op with
            | OpDecrement | OpSubtract _ =>
                if c <=? 0 then [notify_ev wo] else []
            | _ => []
            end) ++ [Unlock]).
Proof.
  destruct op; cbn [call_mutator delta].
  - apply Increment_eq.
  - rewrite Decrement_eq, Subtract_eq. reflexivity.
  - apply Add_eq.
  - rewrite Subtract_eq. replace (counter g + - count) with (counter g - count) by lia.
    reflexivity.
Qed.

Lemma call_mutator_numWaiters op g :
  numWaiters (gate_of (call_mutator wo op g)) = numWaiters g.
Proof. rewrite call_mutator_eq. reflexivity. Qed.

Lemma call_mutator_counter op g :
  counter (gate_of (call_mutator wo op g)) = int32 (counter g + delta op).
Proof. rewrite call_mutator_eq. reflexivity. Qed.

Lemma run_mutators_numWaiters ops g :
  numWaiters (run_mutators wo ops g) = numWaiters g.
Proof.
  revert g; induction ops as [|op ops IH]; intros g; cbn [run_mutators]; [done|].
  rewrite IH. apply call_mutator_numWaiters.
Qed.

Lemma run_mutators_counter ops g :
  in_int32 (counter g) ->
  counter (run_mutators wo ops g) = int32 (counter g + net_delta ops).
Proof.
  revert g; induction ops as [|op ops IH]; intros g Hg; cbn [run_mutators net_delta].
  - rewrite Z.add_0_r. symmetry. by apply int32_id.
  - rewrite IH, call_mutator_counter.
    + rewrite int32_add_l. f_equal. lia.
    + rewrite call_mutator_counter. apply int32_range.
Qed.

Lemma run_mutators_app ops1 ops2 g :
  run_mutators wo (ops1 ++ ops2) g = run_mutators wo ops2 (run_mutators wo ops1 g).
Proof.
  revert g; induction ops1 as [|op ops1 IH]; intros g; cbn [run_mutators app]; auto.
Qed.

Lemma net_delta_Permutation ops ops' :
  Permutation ops ops' -> net_delta ops = net_delta ops'.
Proof. induction 1; cbn [net_delta]; lia. Qed.

End Mutators.

(** ** The wait sections, computed *)

Section WaitSections.
Variable wo : bool.

Lemma relay_trace_eq g :
  relay_trace wo g =
  if wo then (if 0 <? numWaiters g then [NotifyOne] else []) else [].
Proof.
  unfold relay_trace, relay, when, mbind, crit_bind, read_numWaiters, emit,
    mret, crit_ret, trace.
  destruct wo; cbn; [|done]. destruct (0 <? numWaiters g); reflexivity.
Qed.

Lemma leave_eq d g :
  leave wo d g = (Returned d, g, relay_trace wo g ++ [Unlock]).
Proof.
  unfold relay_trace, leave, relay, when, mbind, crit_bind, read_numWaiters,
    emit, mret, crit_ret, trace.
  destruct wo; cbn; [|done]. destruct (0 <? numWaiters g); reflexivity.
Qed.

Lemma park_eq d g :
  park d g = (Sleeping d, mkTLCounter (counter g) (int32 (numWaiters g + 1)), [CvWait]).
Proof. reflexivity. Qed.

Lemma unpark_eq g :
  unpark g = (true, mkTLCounter (counter g) (int32 (numWaiters g - 1)), []).
Proof. reflexivity. Qed.

Lemma WaitUntilZero_test_eq d g :
  WaitUntilZero_test wo d g = if 0 <? counter g then park d g else leave wo d g.
Proof.
  unfold WaitUntilZero_test, mbind, crit_bind, read_counter.
  destruct (0 <? counter g); [rewrite park_eq | rewrite leave_eq]; reflexivity.
Qed.

Lemma wait_enter_eq f g :
  wait_enter wo f g =
  if 0 <? counter g
  then (Sleeping false, mkTLCounter (counter g) (int32 (numWaiters g + 1)),
        [Lock; CvWait])
  else (Returned false, g, Lock :: relay_trace wo g ++ [Unlock]).
Proof.
  destruct f; cbn [wait_enter];
    unfold WaitUntilZero_enter, WaitOneWakeup_enter, WaitUntilZero_test,
      mbind, crit_bind, read_counter, emit;
    (destruct (0 <? counter g); [rewrite park_eq | rewrite leave_eq]; reflexivity).
Qed.

Lemma WaitUntilZero_wakeup_eq g :
  WaitUntilZero_wakeup wo g =
  let g1 := mkTLCounter (counter g) (int32 (numWaiters g - 1)) in
  if 0 <? counter g
  then (Sleeping true, mkTLCounter (counter g) (int32 (int32 (numWaiters g - 1) + 1)),
        [CvWait])
  else (Returned true, g1, relay_trace wo g1 ++ [Unlock]).
Proof.
  unfold WaitUntilZero_wakeup, mbind at 1, crit_bind at 1.
  rewrite unpark_eq, WaitUntilZero_test_eq. cbn [counter].
  destruct (0 <? counter g); [rewrite park_eq | rewrite leave_eq]; reflexivity.
Qed.

Lemma WaitOneWakeup_wakeup_eq g :
  WaitOneWakeup_wakeup wo g =
  let g1 := mkTLCounter (counter g) (int32 (numWaiters g - 1)) in
  (Returned true, g1, relay_trace wo g1 ++ [Unlock]).
Proof.
  unfold WaitOneWakeup_wakeup, mbind at 1, crit_bind at 1.
  rewrite unpark_eq, leave_eq. reflexivity.
Qed.

Lemma wait_wakeup_counter f g :
  counter (gate_of (wait_wakeup wo f g)) = counter g.
Proof.
  destruct f; cbn [wait_wakeup].
  - rewrite WaitUntilZero_wakeup_eq. cbv zeta. destruct (0 <? counter g); reflexivity.
  - rewrite WaitOneWakeup_wakeup_eq. reflexivity.
Qed.

Lemma wait_enter_counter f g :
  counter (gate_of (wait_enter wo f g)) = counter g.
Proof. rewrite wait_enter_eq. destruct (0 <? counter g); reflexivity. Qed.

(** Unfolding of the caller's view. *)
Lemma wait_resume_returned f env d g tr :
  wait_resume wo f env (Returned d, g, tr) = (Returned d, g, tr).
Proof. destruct env; reflexivity. Qed.

Lemma wait_resume_sleeping f others env d g tr :
  wait_resume wo f (others :: env) (Sleeping d, g, tr) =
  wait_resume wo f env (wake_step wo f others g tr).
Proof. reflexivity. Qed.

Lemma consumed_sleeping f others env d g tr :
  consumed wo f (others :: env) (Sleeping d, g, tr) =
  others ++ consumed wo f env (wake_step wo f others g tr).
Proof. reflexivity. Qed.

Lemma consumed_returned f env d g tr :
  consumed wo f env (Returned d, g, tr) = [].
Proof. destruct env; reflexivity. Qed.

(** Induction principle for one wait call: a property of the stop reached
    so far and of the calls consumed so far that every wake-up preserves
    holds when the call stops. *)
Lemma wait_resume_ind (f : wait_fn)
    (P : list mutator -> outcome * TLCounter * list event -> Prop) :
  (forall ms others d g tr,
      P ms (Sleeping d, g, tr) -> P (ms ++ others) (wake_step wo f others g tr)) ->
  forall env ms st,
    P ms st -> P (ms ++ consumed wo f env st) (wait_resume wo f env st).
Proof.
  intros Hstep env; induction env as [|others env IH]; intros ms [[o g] tr] HP.
  - destruct o; cbn; rewrite app_nil_r; exact HP.
  - destruct o as [d|d].
    + rewrite wait_resume_sleeping, consumed_sleeping, app_assoc.
      apply IH. eapply Hstep. exact HP.
    + rewrite wait_resume_returned, consumed_returned, app_nil_r. exact HP.
Qed.

End WaitSections.

(** ** One wait call against its environment *)

Section WaitCall.
Variable wo : bool.

Lemma run_mutators_counter_ext ops g g' :
  counter g = counter g' ->
  counter (run_mutators wo ops g) = counter (run_mutators wo ops g').
Proof.
  revert g g'; induction ops as [|op ops IH]; intros g g' E; cbn [run_mutators]; [done|].
  apply IH. rewrite !call_mutator_counter. by rewrite E.
Qed.

Lemma count_if_app {A} (p : A -> bool) l1 l2 :
  count_if p (l1 ++ l2) = (count_if p l1 + count_if p l2)%nat.
Proof. induction l1 as [|x l1 IH]; cbn; [done|]. rewrite IH. lia. Qed.

Lemma sleeps_replicate k : sleeps (replicate k CvWait) = k.
Proof. induction k as [|k IH]; cbn; [done|]. unfold sleeps in IH. by rewrite IH. Qed.

Lemma wakes_replicate k : wakes (replicate k CvWait) = 0%nat.
Proof. induction k as [|k IH]; cbn; [done|]. exact IH. Qed.

Lemma sleeps_relay g : sleeps (relay_trace wo g ++ [Unlock]) = 0%nat.
Proof. rewrite relay_trace_eq. destruct wo, (0 <? numWaiters g); reflexivity. Qed.

Lemma wakes_relay g :
  wakes (relay_trace wo g ++ [Unlock]) =
  if wo && (0 <? numWaiters g) then 1%nat else 0%nat.
Proof. rewrite relay_trace_eq. destruct wo, (0 <? numWaiters g); reflexivity. Qed.

Lemma sleeps_call k g :
  sleeps (Lock :: replicate k CvWait ++ relay_trace wo g ++ [Unlock]) = k.
Proof.
  unfold sleeps. cbn [count_if is_sleep]. rewrite count_if_app.
  fold (sleeps (replicate k CvWait)). fold (sleeps (relay_trace wo g ++ [Unlock])).
  rewrite sleeps_replicate, sleeps_relay. lia.
Qed.

Lemma wakes_call k g :
  wakes (Lock :: replicate k CvWait ++ relay_trace wo g ++ [Unlock]) =
  if wo && (0 <? numWaiters g) then 1%nat else 0%nat.
Proof.
  unfold wakes. cbn [count_if is_notify]. rewrite count_if_app.
  fold (wakes (replicate k CvWait)). fold (wakes (relay_trace wo g ++ [Unlock])).
  rewrite wakes_replicate, wakes_relay. lia.
Qed.

Lemma call_inv_enter f g : call_inv wo f g [] (wait_enter wo f g).
Proof.
  rewrite wait_enter_eq. destruct (Z.ltb_spec 0 (counter g)) as [E|E];
    cbn [call_inv run_mutators].
  - exists 1%nat. cbn [counter numWaiters]. repeat split; done.
  - exists 0%nat. repeat split; try done; intros _; lia.
Qed.

Lemma call_inv_wake_step f g0 ms others d g tr :
  call_inv wo f g0 ms (Sleeping d, g, tr) ->
  call_inv wo f g0 (ms ++ others) (wake_step wo f others g tr).
Proof.
  intros (k & Hc & -> & Hk & -> & Hn & Hpos & Hone).
  assert (Hc' : counter (run_mutators wo others g)
                = counter (run_mutators wo (ms ++ others) g0)).
  { rewrite run_mutators_app. by apply run_mutators_counter_ext. }
  assert (Hn' : numWaiters (run_mutators wo others g) = int32 (numWaiters g0 + 1)).
  { by rewrite run_mutators_numWaiters. }
  assert (Hb : true = bool_decide (1 <= k)%nat).
  { symmetry. by apply bool_decide_eq_true. }
  assert (Hdec : int32 (int32 (numWaiters g0 + 1) - 1) = int32 (numWaiters g0)).
  { rewrite int32_sub_l. f_equal. lia. }
  unfold wake_step. destruct f; cbn [wait_wakeup].
  - rewrite WaitUntilZero_wakeup_eq. cbv zeta.
    destruct (Z.ltb_spec 0 (counter (run_mutators wo others g))) as [E|E];
      cbn [call_inv].
    + exists (S k). cbn [counter numWaiters]. rewrite Hn', Hdec.
      split; [done|]. split.
      { cbn [replicate]. rewrite replicate_cons_app. reflexivity. }
      split; [lia|]. split.
      { symmetry. apply bool_decide_eq_true. lia. }
      split; [apply int32_add_l|]. split; [done|]. intros [=].
    + exists k. cbn [counter numWaiters]. rewrite Hn', Hdec.
      split; [done|]. split; [reflexivity|].
      split; [done|]. split; [done|]. split; [done|]. intros [=].
  - rewrite WaitOneWakeup_wakeup_eq. cbv zeta. cbn [call_inv].
    exists k. cbn [counter numWaiters]. rewrite Hn', Hdec.
    split; [done|]. split; [reflexivity|].
    split; [done|]. split; [done|]. split; [intros [=]|].
    intros _. rewrite Hone; [lia|done].
Qed.

Lemma call_inv_wait_call f env g :
  call_inv wo f g (consumed wo f env (wait_enter wo f g)) (wait_call wo f env g).
Proof.
  unfold wait_call.
  apply (wait_resume_ind wo f (call_inv wo f g)
           (fun ms others d g' tr => call_inv_wake_step f g ms others d g' tr)
           env [] (wait_enter wo f g)).
  apply call_inv_enter.
Qed.

End WaitCall.

(** ** The condition variable and the pool *)

Section Pool.

Lemma count_if_insert {A} (p : A -> bool) (l : list A) i x y :
  l !! i = Some y ->
  (count_if p (<[i:=x]> l) + (if p y then 1 else 0)
   = count_if p l + (if p x then 1 else 0))%nat.
Proof.
  revert i; induction l as [|a l IH]; intros [|i] H; try done.
  - injection H as ->. cbn. destruct (p x), (p y); lia.
  - specialize (IH i H). change (<[S i:=x]> (a :: l)) with (a :: <[i:=x]> l).
    cbn [count_if]. destruct (p x), (p y), (p a); lia.
Qed.

Lemma count_if_lookup {A} (p : A -> bool) (l : list A) i y :
  l !! i = Some y -> p y = true -> (1 <= count_if p l)%nat.
Proof.
  revert i; induction l as [|a l IH]; intros [|i] H Hy; try done.
  - injection H as ->. cbn. rewrite Hy. lia.
  - specialize (IH i H Hy). cbn [count_if]. destruct (p a); lia.
Qed.

Lemma count_if_pos {A} (p : A -> bool) (l : list A) :
  (1 <= count_if p l)%nat -> exists i y, l !! i = Some y /\ p y = true.
Proof.
  induction l as [|a l IH]; cbn; [lia|].
  destruct (p a) eqn:E.
  - intros _. by exists 0%nat, a.
  - intros H. destruct IH as (i & y & Hi & Hy); [lia|]. by exists (S i), y.
Qed.

Lemma count_if_le_length {A} (p : A -> bool) (l : list A) :
  (count_if p l <= length l)%nat.
Proof. induction l as [|a l IH]; cbn; [lia|]. destruct (p a); lia. Qed.

Lemma waiting_insert_same p i x y :
  p !! i = Some y -> in_wait x = in_wait y -> waiting (<[i:=x]> p) = waiting p.
Proof.
  intros Hi E. pose proof (count_if_insert in_wait p i x y Hi) as H.
  unfold waiting. rewrite E in H. destruct (in_wait y); lia.
Qed.

Lemma waiting_insert_enter p i x y :
  p !! i = Some y -> in_wait y = false -> in_wait x = true ->
  waiting (<[i:=x]> p) = S (waiting p).
Proof.
  intros Hi Ey Ex. pose proof (count_if_insert in_wait p i x y Hi) as H.
  unfold waiting. rewrite Ex, Ey in H. lia.
Qed.

Lemma waiting_insert_leave p i x y :
  p !! i = Some y -> in_wait y = true -> in_wait x = false ->
  S (waiting (<[i:=x]> p)) = waiting p.
Proof.
  intros Hi Ey Ex. pose proof (count_if_insert in_wait p i x y Hi) as H.
  unfold waiting. rewrite Ex, Ey in H. lia.
Qed.

Lemma waiting_wake p : waiting (wake <$> p) = waiting p.
Proof.
  unfold waiting. induction p as [|t p IH]; cbn; [done|].
  rewrite IH. by destruct t.
Qed.

Lemma waiting_replicate_Idle N : waiting (replicate N Idle) = 0%nat.
Proof. induction N as [|N IH]; cbn; [done|]. exact IH. Qed.

Lemma some_parked_dec p : some_parked p \/ ~ some_parked p.
Proof.
  induction p as [|t p IH].
  - right. intros (j & f & d & H). by destruct j.
  - destruct t as [|f d|f d|f d];
      try (destruct IH as [(j & f' & d' & H)|IH];
           [left; by exists (S j), f', d'
           |right; intros ([|j] & f' & d' & H); cbn in H; [done|];
            apply IH; by exists j, f', d']).
    left. by exists 0%nat, f, d.
Qed.

(** A notification only ever turns a parked thread into a woken one. *)
Lemma cv_event_lookup e p p' j :
  cv_event e p p' ->
  p' !! j = p !! j \/
  exists f d, p !! j = Some (Parked f d) /\ p' !! j = Some (Woken f d).
Proof.
  intros H; destruct H as [p i f d Hi|p Hn|p|e p He]; auto.
  - destruct (decide (i = j)) as [->|Hne].
    + right. exists f, d. split; [done|].
      apply list_lookup_insert_eq. by eapply lookup_lt_Some.
    + left. by apply list_lookup_insert_ne.
  - rewrite list_lookup_fmap. destruct (p !! j) as [[| f d | f d | f d]|]; cbn; auto.
    right. by exists f, d.
Qed.

Lemma deliver_lookup tr p p' j :
  deliver tr p p' ->
  p' !! j = p !! j \/
  exists f d, p !! j = Some (Parked f d) /\ p' !! j = Some (Woken f d).
Proof.
  induction 1 as [p|e tr p p1 p2 He Hd IH]; [by left|].
  destruct (cv_event_lookup _ _ _ j He) as [E|(f & d & E1 & E2)].
  - by rewrite <- E.
  - right. exists f, d. split; [done|].
    destruct IH as [E|(f' & d' & E3 & _)]; congruence.
Qed.

Lemma cv_event_waiting e p p' :
  cv_event e p p' -> length p' = length p /\ waiting p' = waiting p.
Proof.
  intros H; destruct H as [p i f d Hi|p Hn|p|e p He]; auto.
  - split; [apply length_insert|].
    pose proof (count_if_insert in_wait p i (Woken f d) _ Hi) as E.
    unfold waiting. cbn in E. lia.
  - split; [apply length_fmap|apply waiting_wake].
Qed.

Lemma deliver_waiting tr p p' :
  deliver tr p p' -> length p' = length p /\ waiting p' = waiting p.
Proof.
  induction 1 as [p|e tr p p1 p2 He Hd [IH1 IH2]]; [done|].
  destruct (cv_event_waiting _ _ _ He). split; congruence.
Qed.

Lemma deliver_total tr p : exists p', deliver tr p p'.
Proof.
  revert p; induction tr as [|e tr IH]; intros p.
  - exists p. constructor.
  - assert (exists p1, cv_event e p p1) as [p1 H1].
    { destruct e; try (exists p; by apply cv_other).
      - destruct (some_parked_dec p) as [(j & f & d & H)|H].
        + eexists. by eapply cv_notify_one.
        + exists p. by apply cv_notify_one_lost.
      - eexists. apply cv_notify_all. }
    destruct (IH p1) as [p2 H2]. exists p2. by econstructor.
Qed.

Lemma deliver_silent tr p p' :
  wakes tr = 0%nat -> deliver tr p p' -> p' = p.
Proof.
  intros Hw H; induction H as [p|e tr p p1 p2 He Hd IH]; [done|].
  unfold wakes in Hw. cbn in Hw.
  destruct He as [p i f d Hi|p Hn|p|e p He]; cbn in Hw; try lia.
  - apply IH. rewrite He in Hw. exact Hw.
Qed.

Lemma deliver_woken tr p p' : deliver tr p p' -> some_woken p -> some_woken p'.
Proof.
  intros H (j & f & d & Hj). exists j, f, d.
  destruct (deliver_lookup _ _ _ j H) as [E|(f' & d' & E & _)]; congruence.
Qed.

Lemma deliver_parked tr p p' : deliver tr p p' -> some_parked p' -> some_parked p.
Proof.
  intros H (j & f & d & Hj). exists j, f, d.
  destruct (deliver_lookup _ _ _ j H) as [E|(f' & d' & _ & E)]; congruence.
Qed.

Lemma deliver_notify_one tr p p' :
  deliver tr p p' -> In NotifyOne tr -> some_parked p -> some_woken p'.
Proof.
  induction 1 as [p|e tr p p1 p2 He Hd IH]; intros Hin Hp; [done|].
  destruct He as [p i f d Hi|p Hn|p|e p He].
  - eapply deliver_woken; [done|]. exists i, f, d.
    apply list_lookup_insert_eq. by eapply lookup_lt_Some.
  - done.
  - eapply deliver_woken; [done|]. destruct Hp as (j & f & d & Hj).
    exists j, f, d. by rewrite list_lookup_fmap, Hj.
  - destruct Hin as [->|Hin]; [done|]. by apply IH.
Qed.

Lemma deliver_notify_all tr p p' :
  deliver tr p p' -> In NotifyAll tr -> ~ some_parked p'.
Proof.
  induction 1 as [p|e tr p p1 p2 He Hd IH]; intros Hin; [done|].
  destruct (decide (e = NotifyAll)) as [->|Hne].
  - inversion He; subst; [|done].
    intros Hp. apply (deliver_parked _ _ _ Hd) in Hp.
    destruct Hp as (j & f & d & Hj). rewrite list_lookup_fmap in Hj.
    by destruct (p !! j) as [[]|].
  - destruct Hin as [->|Hin]; [done|]. by apply IH.
Qed.

End Pool.

(** ** Invariants of the pool semantics *)

Section Invariants.
Variable wo : bool.

Lemma wait_enter_drained f g :
  counter g <= 0 ->
  wait_enter wo f g = (Returned false, g, Lock :: relay_trace wo g ++ [Unlock]).
Proof.
  intros H. rewrite wait_enter_eq. destruct (Z.ltb_spec 0 (counter g)); [lia|done].
Qed.

Lemma wait_wakeup_drained f g :
  counter g <= 0 ->
  wait_wakeup wo f g =
  (Returned true, mkTLCounter (counter g) (int32 (numWaiters g - 1)),
   relay_trace wo (mkTLCounter (counter g) (int32 (numWaiters g - 1))) ++ [Unlock]).
Proof.
  intros H. destruct f; cbn [wait_wakeup].
  - rewrite WaitUntilZero_wakeup_eq. cbv zeta.
    destruct (Z.ltb_spec 0 (counter g)); [lia|done].
  - by rewrite WaitOneWakeup_wakeup_eq.
Qed.

Lemma can_call_not_waiting t : can_call t = true -> in_wait t = false.
Proof. by destruct t. Qed.

Lemma accounted_init N : accounted N (init N).
Proof.
  split; cbn.
  - apply length_replicate.
  - by rewrite waiting_replicate_Idle.
Qed.

Lemma accounted_bounds N w :
  accounted N w -> 0 <= numWaiters (gate w) <= Z.of_nat N.
Proof.
  intros [HL HW]. rewrite HW.
  pose proof (count_if_le_length in_wait (pool w)) as Hle.
  unfold waiting. lia.
Qed.

Lemma accounted_step N w l w' :
  Z.of_nat N <= INT32_MAX ->
  accounted N w -> step wo w l w' -> accounted N w'.
Proof.
  intros HN Hacc Hs. pose proof (accounted_bounds _ _ Hacc) as Hb.
  destruct Hacc as [HL HW].
  pose proof (count_if_le_length in_wait (pool w)) as Hle.
  fold (waiting (pool w)) in Hle.
  destruct Hs as [w op p' Hok Hd|w i f t p' Hi Hc Hd|w i f d p' Hi Hd|w i f d Hi];
    unfold accounted; cbn [gate pool].
  - destruct (deliver_waiting _ _ _ Hd) as [E1 E2].
    rewrite call_mutator_numWaiters. split; congruence.
  - destruct (deliver_waiting _ _ _ Hd) as [E1 E2].
    rewrite length_insert in E1.
    pose proof (count_if_le_length in_wait p') as Hle'. fold (waiting p') in Hle'.
    pose proof (can_call_not_waiting _ Hc) as Ht.
    revert E2 Hd. rewrite wait_enter_eq.
    destruct (0 <? counter (gate w)); cbn [result gate_of trace fst snd after];
      intros E2 _; (split; [congruence|]); cbn [numWaiters].
    + rewrite (waiting_insert_enter _ _ (Parked f false) _ Hi Ht eq_refl) in E2.
      rewrite int32_id; [lia|]. unfold in_int32, INT32_MIN, INT32_MAX in *. lia.
    + rewrite (waiting_insert_same _ _ _ _ Hi) in E2; [lia|by rewrite Ht].
  - destruct (deliver_waiting _ _ _ Hd) as [E1 E2].
    rewrite length_insert in E1.
    pose proof (count_if_lookup in_wait _ _ _ Hi eq_refl) as Hge.
    fold (waiting (pool w)) in Hge.
    assert (Hdec : int32 (numWaiters (gate w) - 1) = numWaiters (gate w) - 1).
    { apply int32_id. unfold in_int32, INT32_MIN, INT32_MAX in *. lia. }
    assert (Hsame : forall d',
      waiting (<[i:=Parked f d']> (pool w)) = waiting (pool w)).
    { intros d'. by apply (waiting_insert_same _ _ _ _ Hi). }
    assert (Hless : forall d',
      S (waiting (<[i:=Finished f d']> (pool w))) = waiting (pool w)).
    { intros d'. by apply (waiting_insert_leave _ _ _ _ Hi). }
    revert E2 Hd. destruct f; cbn [wait_wakeup].
    + rewrite WaitUntilZero_wakeup_eq. cbv zeta.
      destruct (0 <? counter (gate w)); cbn [result gate_of trace fst snd after];
        intros E2 _; (split; [congruence|]); cbn [numWaiters]; rewrite Hdec.
      * rewrite int32_id; [rewrite E2, Hsame; lia|].
        unfold in_int32, INT32_MIN, INT32_MAX in *. lia.
      * specialize (Hless true). lia.
    + rewrite WaitOneWakeup_wakeup_eq. cbv zeta.
      cbn [result gate_of trace fst snd after].
      intros E2 _. split; [congruence|]. cbn [numWaiters]. rewrite Hdec.
      specialize (Hless true). lia.
  - rewrite length_insert. split; [done|].
    rewrite (waiting_insert_same _ _ _ _ Hi); done.
Qed.

Lemma accounted_exec N P w ls w' :
  Z.of_nat N <= INT32_MAX ->
  accounted N w -> exec wo P w ls w' -> accounted N w'.
Proof.
  intros HN Hacc H; induction H as [w|w ls w1 l w2 H IH Hs HP]; [done|].
  eapply accounted_step; [exact HN| |exact Hs]. by apply IH.
Qed.

Lemma accounted_reachable N w :
  Z.of_nat N <= INT32_MAX -> reachable wo N w -> accounted N w.
Proof.
  intros HN [ls H]. eapply accounted_exec; [exact HN|apply accounted_init|exact H].
Qed.

End Invariants.

(** ** The wake chain *)

Section Chain.
Variable wo : bool.

Lemma exec_cons P w l w1 ls w2 :
  step wo w l w1 -> P w1 -> exec wo P w1 ls w2 -> exec wo P w (l :: ls) w2.
Proof.
  intros Hs HP H; induction H as [w1|w1 ls w2 l' w3 H IH Hs' HP'].
  - apply (exec_step wo P w [] w l w1); [constructor|done|done].
  - rewrite app_comm_cons. eapply exec_step; [by apply IH|done|done].
Qed.

Lemma some_parked_insert p i x :
  is_parked x = false -> some_parked (<[i:=x]> p) -> some_parked p.
Proof.
  intros Hx (j & f & d & Hj). exists j, f, d.
  apply list_lookup_insert_Some in Hj as [(_ & -> & _)|(_ & Hj)]; done.
Qed.

Lemma some_woken_insert p i x t :
  p !! i = Some t -> is_woken t = false -> some_woken p -> some_woken (<[i:=x]> p).
Proof.
  intros Hi Ht (j & f & d & Hj). exists j, f, d.
  rewrite list_lookup_insert_ne; [done|]. intros ->.
  rewrite Hi in Hj. injection Hj as ->. done.
Qed.

Lemma chain_established w op w' :
  (op = OpDecrement \/ exists n, op = OpSubtract n) ->
  step wo w (LMut op) w' -> drained w' -> chain_ok wo w'.
Proof.
  intros Hop Hs Hdr. inversion Hs as [w0 op0 p' Hok Hd| | |]; subst.
  unfold drained in Hdr. cbn [gate] in Hdr. rewrite call_mutator_counter in Hdr.
  rewrite call_mutator_eq in Hd. cbv zeta in Hd. cbn [trace snd] in Hd.
  assert (Hin : In (notify_ev wo)
    (Lock :: match op with
             | OpDecrement | OpSubtract _ =>
                 if int32 (counter (gate w) + delta op) <=? 0
                 then [notify_ev wo] else []
             | _ => []
             end ++ [Unlock])).
  { destruct (Z.leb_spec (int32 (counter (gate w) + delta op)) 0); [|lia].
    destruct Hop as [->|[n ->]]; cbn; auto. }
  unfold chain_ok, notify_ev in *. cbn [pool]. destruct wo.
  - intros Hp. eapply deliver_notify_one; [exact Hd|exact Hin|].
    eapply deliver_parked; [exact Hd|exact Hp].
  - eapply deliver_notify_all; [exact Hd|exact Hin].
Qed.

Lemma chain_step N w l w' :
  Z.of_nat N <= INT32_MAX ->
  accounted N w -> chain_ok wo w -> drained w -> step wo w l w' -> chain_ok wo w'.
Proof.
  intros HN Hacc Hch Hdr Hs. pose proof (accounted_bounds _ _ Hacc) as Hb.
  destruct Hacc as [HL HW]. unfold drained in Hdr.
  destruct Hs as [w op p' Hok Hd|w i f t p' Hi Hc Hd|w i f d p' Hi Hd|w i f d Hi];
    unfold chain_ok in *; cbn [gate pool].
  - destruct wo.
    + intros Hp. eapply deliver_woken; [exact Hd|].
      apply Hch. eapply deliver_parked; [exact Hd|exact Hp].
    + intros Hp. apply Hch. eapply deliver_parked; [exact Hd|exact Hp].
  - revert Hd. rewrite (wait_enter_drained wo f _ Hdr).
    cbn [result gate_of trace fst snd after]. intros Hd.
    assert (Hback : some_parked p' -> some_parked (pool w)).
    { intros Hp. eapply some_parked_insert; [|eapply deliver_parked; [exact Hd|exact Hp]].
      done. }
    destruct wo; [|tauto].
    intros Hp. eapply deliver_woken; [exact Hd|].
    eapply some_woken_insert; [exact Hi|by destruct t|]. auto.
  - revert Hd. rewrite (wait_wakeup_drained wo f _ Hdr).
    cbn [result gate_of trace fst snd after]. intros Hd.
    assert (Hback : some_parked p' -> some_parked (<[i:=Finished f true]> (pool w))).
    { intros Hp. eapply deliver_parked; [exact Hd|exact Hp]. }
    destruct wo.
    + intros Hp. specialize (Hback Hp).
      eapply deliver_notify_one; [exact Hd| |exact Hback].
      destruct Hback as (j & f' & d' & Hj).
      pose proof (count_if_lookup in_wait _ _ _ Hj eq_refl) as Hge.
      fold (waiting (<[i:=Finished f true]> (pool w))) in Hge.
      pose proof (waiting_insert_leave (pool w) i (Finished f true) _ Hi eq_refl eq_refl)
        as Hlv.
      pose proof (count_if_le_length in_wait (pool w)) as Hle.
      fold (waiting (pool w)) in Hle.
      rewrite relay_trace_eq. cbn [numWaiters].
      rewrite int32_id; [|unfold in_int32, INT32_MIN, INT32_MAX in *; lia].
      destruct (Z.ltb_spec 0 (numWaiters (gate w) - 1)); [|lia].
      cbn. auto.
    + intros Hp. apply Hch. eapply some_parked_insert; [|exact (Hback Hp)]. done.
  - destruct wo.
    + intros _. exists i, f, d. apply list_lookup_insert_eq. by eapply lookup_lt_Some.
    + intros Hp. apply Hch. exists i, f, d. exact Hi.
Qed.

Lemma live_step N w l w' :
  Z.of_nat N <= INT32_MAX ->
  live wo N w -> step wo w l w' -> drained w' -> live wo N w'.
Proof.
  intros HN (Hacc & Hch & Hdr) Hs Hdr'. split; [|split; [|done]].
  - eapply accounted_step; eauto.
  - eapply chain_step; eauto.
Qed.

Lemma live_exec N w ls w' :
  Z.of_nat N <= INT32_MAX ->
  live wo N w -> exec wo drained w ls w' -> live wo N w'.
Proof.
  intros HN Hl H; induction H as [w|w ls w1 l w2 H IH Hs HP]; [done|].
  eapply live_step; [exact HN|by apply IH|exact Hs|exact HP].
Qed.

Lemma live_progress N w :
  live wo N w -> (1 <= waiting (pool w))%nat -> some_woken (pool w).
Proof.
  intros (_ & Hch & _) Hw.
  destruct (count_if_pos _ _ Hw) as (i & t & Hi & Ht).
  destruct t as [|f d|f d|f d]; try done.
  - unfold chain_ok in Hch.
    assert (Hp : some_parked (pool w)) by (by exists i, f, d).
    destruct wo; [auto|done].
  - by exists i, f, d.
Qed.

Lemma resume_enabled w i f d :
  pool w !! i = Some (Woken f d) -> exists w', step wo w (LResume i) w'.
Proof.
  intros Hi.
  destruct (deliver_total (trace (wait_wakeup wo f (gate w)))
              (<[i:=after f (result (wait_wakeup wo f (gate w)))]> (pool w)))
    as [p' Hd].
  eexists. eapply step_resume; eauto.
Qed.

Lemma resume_returns w i w' :
  drained w -> step wo w (LResume i) w' ->
  (exists f d, pool w !! i = Some (Woken f d) /\ pool w' !! i = Some (Finished f true)) /\
  S (waiting (pool w')) = waiting (pool w) /\
  counter (gate w') = counter (gate w) /\
  (forall j f r, pool w !! j = Some (Finished f r) ->
                 pool w' !! j = Some (Finished f r)) /\
  (forall j f, j <> i -> blocked_in f (pool w) j -> blocked_in f (pool w') j).
Proof.
  intros Hdr Hs. inversion Hs as [| |w0 i0 f d p' Hi Hd|]; subst. cbn [gate pool].
  revert Hd. rewrite (wait_wakeup_drained wo f _ Hdr).
  cbn [result gate_of trace fst snd after counter]. intros Hd.
  pose proof (lookup_lt_Some _ _ _ Hi) as Hlt.
  assert (Hlook : forall j t, j <> i -> pool w !! j = Some t ->
            p' !! j = Some t \/
            exists f' d', t = Parked f' d' /\ p' !! j = Some (Woken f' d')).
  { intros j t Hne Hj.
    destruct (deliver_lookup _ _ _ j Hd) as [E|(f' & d' & E1 & E2)];
      rewrite list_lookup_insert_ne in * by done.
    - left. congruence.
    - right. exists f', d'. split; congruence. }
  split; [|split; [|split; [done|split]]].
  - exists f, d. split; [done|].
    destruct (deliver_lookup _ _ _ i Hd) as [E|(f' & d' & E1 & E2)];
      rewrite list_lookup_insert_eq in * by done; congruence.
  - destruct (deliver_waiting _ _ _ Hd) as [_ ->].
    by apply (waiting_insert_leave _ _ _ _ Hi).
  - intros j f' r Hj.
    assert (j <> i) by (intros ->; congruence).
    destruct (Hlook j _ H Hj) as [E|(f2 & d2 & E & _)]; done.
  - intros j f' Hne [d' [Hj|Hj]].
    + destruct (Hlook j _ Hne Hj) as [E|(f2 & d2 & E & E')].
      * exists d'. by left.
      * injection E as <- <-. exists d'. by right.
    + destruct (Hlook j _ Hne Hj) as [E|(f2 & d2 & E & E')]; [|done].
      exists d'. by right.
Qed.

Lemma chain_completes N (HN : Z.of_nat N <= INT32_MAX) n : forall w,
  live wo N w -> waiting (pool w) = n ->
  exists ls w3,
    exec wo drained w ls w3 /\ Forall is_resume ls /\ length ls = n /\
    waiting (pool w3) = 0%nat /\
    (forall j f r, pool w !! j = Some (Finished f r) ->
                   pool w3 !! j = Some (Finished f r)) /\
    (forall j f, blocked_in f (pool w) j -> pool w3 !! j = Some (Finished f true)).
Proof.
  induction n as [|n IH]; intros w Hl Hn.
  - exists [], w. split; [constructor|]. repeat split; try done.
    intros j f [d [Hj|Hj]];
      pose proof (count_if_lookup in_wait _ _ _ Hj eq_refl) as Hge;
      unfold waiting in Hn; lia.
  - destruct (live_progress N w Hl) as (i & f & d & Hi); [lia|].
    destruct (resume_enabled w i f d Hi) as [w' Hs].
    pose proof Hl as (_ & _ & Hdr).
    destruct (resume_returns w i w' Hdr Hs)
      as ((f0 & d0 & Hi0 & Hfin) & Hcnt & Hctr & Hkeep & Hblk).
    assert (Hdr' : drained w') by (unfold drained in *; lia).
    pose proof (live_step _ _ _ _ HN Hl Hs Hdr') as Hl'.
    destruct (IH w' Hl') as (ls & w3 & Hex & Hres & Hlen & Hz & Hkeep' & Hall); [lia|].
    exists (LResume i :: ls), w3. split; [by eapply exec_cons|].
    split; [by constructor|]. split; [cbn; lia|]. split; [done|]. split.
    + intros j f' r Hj. eauto.
    + intros j f' Hb. destruct (decide (j = i)) as [->|Hne].
      * apply Hkeep'. destruct Hb as [d' [Hj|Hj]]; congruence.
      * apply Hall. by apply Hblk.
Qed.

End Chain.

(** ** What a step does to the thread that takes it *)

Section Steps.
Variable wo : bool.

Lemma deliver_self tr p p' i t :
  deliver tr p p' -> p !! i = Some t ->
  (is_parked t = true -> wakes tr = 0%nat) ->
  p' !! i = Some t.
Proof.
  intros Hd Hi Hs. destruct (is_parked t) eqn:E.
  - by rewrite (deliver_silent _ _ _ (Hs eq_refl) Hd).
  - destruct (deliver_lookup _ _ _ i Hd) as [E'|(f & d & E1 & _)]; [congruence|].
    rewrite Hi in E1. injection E1 as ->. done.
Qed.

Lemma wait_enter_parks_silently f g :
  is_parked (after f (result (wait_enter wo f g))) = true ->
  wakes (trace (wait_enter wo f g)) = 0%nat.
Proof. rewrite wait_enter_eq. by destruct (0 <? counter g). Qed.

Lemma wait_wakeup_parks_silently f g :
  is_parked (after f (result (wait_wakeup wo f g))) = true ->
  wakes (trace (wait_wakeup wo f g)) = 0%nat.
Proof.
  destruct f; cbn [wait_wakeup].
  - rewrite WaitUntilZero_wakeup_eq. cbv zeta. by destruct (0 <? counter g).
  - by rewrite WaitOneWakeup_wakeup_eq.
Qed.

Lemma step_call_self w i f w' :
  step wo w (LCall i f) w' ->
  pool w' !! i = Some (after f (result (wait_enter wo f (gate w)))) /\
  gate w' = gate_of (wait_enter wo f (gate w)).
Proof.
  intros Hs. inversion Hs as [|w0 i0 f0 t p' Hi Hc Hd| |]; subst. cbn [gate pool].
  split; [|done]. eapply deliver_self; [exact Hd| |apply wait_enter_parks_silently].
  apply list_lookup_insert_eq. by eapply lookup_lt_Some.
Qed.

Lemma step_resume_self w i w' :
  step wo w (LResume i) w' ->
  exists f d,
    pool w !! i = Some (Woken f d) /\
    pool w' !! i = Some (after f (result (wait_wakeup wo f (gate w)))) /\
    gate w' = gate_of (wait_wakeup wo f (gate w)).
Proof.
  intros Hs. inversion Hs as [| |w0 i0 f d p' Hi Hd|]; subst. cbn [gate pool].
  exists f, d. split; [done|]. split; [|done].
  eapply deliver_self; [exact Hd| |apply wait_wakeup_parks_silently].
  apply list_lookup_insert_eq. by eapply lookup_lt_Some.
Qed.

Lemma step_counter w l w' :
  step wo w l w' ->
  counter (gate w') =
  match l with
  | LMut op => int32 (counter (gate w) + delta op)
  | _ => counter (gate w)
  end.
Proof.
  intros Hs.
  destruct Hs as [w op p' Hok Hd|w i f t p' Hi Hc Hd|w i f d p' Hi Hd|w i f d Hi];
    cbn [gate].
  - apply call_mutator_counter.
  - apply wait_enter_counter.
  - apply wait_wakeup_counter.
  - done.
Qed.

Lemma waiting_step_drained w l w' :
  drained w -> step wo w l w' -> (waiting (pool w') <= waiting (pool w))%nat.
Proof.
  intros Hdr Hs.
  destruct Hs as [w op p' Hok Hd|w i f t p' Hi Hc Hd|w i f d p' Hi Hd|w i f d Hi];
    cbn [gate pool].
  - destruct (deliver_waiting _ _ _ Hd) as [_ ->]. lia.
  - destruct (deliver_waiting _ _ _ Hd) as [_ ->].
    rewrite (wait_enter_drained wo f _ Hdr). cbn [result fst after].
    rewrite (waiting_insert_same _ _ _ _ Hi); [lia|].
    by rewrite (can_call_not_waiting _ Hc).
  - destruct (deliver_waiting _ _ _ Hd) as [_ ->].
    rewrite (wait_wakeup_drained wo f _ Hdr). cbn [result fst after].
    pose proof (waiting_insert_leave _ i (Finished f true) _ Hi eq_refl eq_refl). lia.
  - rewrite (waiting_insert_same _ _ _ _ Hi); [lia|done].
Qed.

End Steps.

(** * The claims *)

(** C1.  WaitUntilZero returns only when [counter <= 0]: whatever the other
    threads do while it sleeps, a call that has returned left the counter
    non-positive, and a call that has not returned is parked with the
    counter positive.  A wake-up that finds [counter > 0] parks the thread
    again instead of returning (in the section that follows [condVar.wait]
    and in the pool semantics alike), and a wake-up that finds
    [counter <= 0] returns.  The value returned is [true] exactly when the
    call parked at least once. *)
Theorem WaitUntilZero_returns_only_when_drained
    (wo : bool) (env : list (list mutator)) (g : TLCounter) :
  let r := WaitUntilZero wo env g in
  (forall d, result r = Returned d ->
     counter (gate_of r) <= 0 /\ (d = true <-> (1 <= sleeps (trace r))%nat)) /\
  (forall d, result r = Sleeping d ->
     0 < counter (gate_of r) /\ (1 <= sleeps (trace r))%nat) /\
  (forall g', 0 < counter g' ->
     result (WaitUntilZero_wakeup wo g') = Sleeping true) /\
  (forall g', counter g' <= 0 ->
     result (WaitUntilZero_wakeup wo g') = Returned true) /\
  (forall w i d w',
     pool w !! i = Some (Woken FnWaitUntilZero d) ->
     0 < counter (gate w) ->
     step wo w (LResume i) w' ->
     pool w' !! i = Some (Parked FnWaitUntilZero true)) /\
  (forall w i d w' r,
     pool w !! i = Some (Woken FnWaitUntilZero d) ->
     step wo w (LResume i) w' ->
     pool w' !! i = Some (Finished FnWaitUntilZero r) ->
     counter (gate w') <= 0 /\ r = true).
Proof.
  cbv zeta. unfold WaitUntilZero.
  pose proof (call_inv_wait_call wo FnWaitUntilZero env g) as Hinv.
  destruct (wait_call wo FnWaitUntilZero env g) as [[o g1] tr].
  cbn [call_inv] in Hinv. destruct Hinv as (k & Hc & Hinv).
  cbn [result gate_of trace fst snd].
  split; [|split; [|split; [|split; [|split]]]].
  - intros d ->. destruct Hinv as (-> & -> & _ & Hle & _).
    split; [by apply Hle|]. rewrite sleeps_call. apply bool_decide_eq_true.
  - intros d ->. destruct Hinv as (-> & Hk & _ & _ & Hpos & _).
    split; [done|]. unfold sleeps. cbn [count_if is_sleep].
    fold (sleeps (replicate k CvWait)). by rewrite sleeps_replicate.
  - intros g' Hpos. rewrite WaitUntilZero_wakeup_eq. cbv zeta.
    by destruct (Z.ltb_spec 0 (counter g')); [|lia].
  - intros g' Hle. rewrite WaitUntilZero_wakeup_eq. cbv zeta.
    by destruct (Z.ltb_spec 0 (counter g')); [lia|].
  - intros w i d w' Hi Hpos Hs.
    destruct (step_resume_self wo _ _ _ Hs) as (f & d' & Hi' & Hafter & _).
    rewrite Hi in Hi'. injection Hi' as <- <-.
    rewrite Hafter. cbn [wait_wakeup]. rewrite WaitUntilZero_wakeup_eq. cbv zeta.
    by destruct (Z.ltb_spec 0 (counter (gate w))); [|lia].
  - intros w i d w' r Hi Hs Hfin.
    destruct (step_resume_self wo _ _ _ Hs) as (f & d' & Hi' & Hafter & Hg).
    rewrite Hi in Hi'. injection Hi' as <- <-.
    rewrite Hafter in Hfin. rewrite Hg. revert Hfin.
    cbn [wait_wakeup]. rewrite WaitUntilZero_wakeup_eq. cbv zeta.
    destruct (Z.ltb_spec 0 (counter (gate w))); cbn [result gate_of fst snd after];
      [done|].
    intros [= <-]. by cbn [counter].
Qed.

(** C2.  Called on a drained gate ([counter <= 0]), WaitUntilZero and
    WaitOneWakeup return at once: they return [false], never park, take
    nothing from the environment and leave the gate as it was; in the pool
    semantics the calling thread is finished with [false] after one step. *)
Theorem wait_on_drained_gate_returns_false
    (wo : bool) (env : list (list mutator)) (g : TLCounter) :
  counter g <= 0 ->
  (result (WaitUntilZero wo env g) = Returned false /\
   sleeps (trace (WaitUntilZero wo env g)) = 0%nat /\
   gate_of (WaitUntilZero wo env g) = g) /\
  (result (WaitOneWakeup wo env g) = Returned false /\
   sleeps (trace (WaitOneWakeup wo env g)) = 0%nat /\
   gate_of (WaitOneWakeup wo env g) = g) /\
  (forall f, consumed wo f env (wait_enter wo f g) = []) /\
  (forall w i f w',
     gate w = g -> step wo w (LCall i f) w' ->
     pool w' !! i = Some (Finished f false) /\ gate w' = g).
Proof.
  intros Hle.
  assert (Hcall : forall f,
    wait_call wo f env g = (Returned false, g, Lock :: relay_trace wo g ++ [Unlock])).
  { intros f. unfold wait_call. rewrite (wait_enter_drained wo f g Hle).
    apply wait_resume_returned. }
  assert (Hs0 : sleeps (Lock :: relay_trace wo g ++ [Unlock]) = 0%nat).
  { apply (sleeps_call wo 0 g). }
  unfold WaitUntilZero, WaitOneWakeup. rewrite !Hcall.
  cbn [result gate_of trace fst snd].
  split; [done|]. split; [done|]. split.
  - intros f. rewrite (wait_enter_drained wo f g Hle). apply consumed_returned.
  - intros w i f w' Hg Hs. subst g.
    destruct (step_call_self wo _ _ _ _ Hs) as [Hp Hg].
    by rewrite (wait_enter_drained wo f _ Hle) in Hp, Hg.
Qed.

(** C4.  Under wake-one-with-relay ([TL_WAKE_ONE = 1]) every wait call
    that returns, WaitUntilZero or WaitOneWakeup, slept or not, has the
    log: lock, one [CvWait] per sleep, then one [NotifyOne] exactly when
    [numWaiters > 0] at that moment, then the unlock.  The relay is the
    only wake of the call and it comes before the mutex is released. *)
Theorem relay_wake_on_every_exit
    (f : wait_fn) (env : list (list mutator)) (g : TLCounter) (d : bool) :
  let r := wait_call true f env g in
  result r = Returned d ->
  exists k : nat,
    trace r = Lock :: replicate k CvWait
              ++ (if 0 <? numWaiters (gate_of r) then [NotifyOne] else [])
              ++ [Unlock] /\
    d = bool_decide (1 <= k)%nat /\
    wakes (trace r) = (if 0 <? numWaiters (gate_of r) then 1%nat else 0%nat) /\
    leave true d (gate_of r) =
      (Returned d, gate_of r,
       (if 0 <? numWaiters (gate_of r) then [NotifyOne] else []) ++ [Unlock]).
Proof.
  cbv zeta.
  pose proof (call_inv_wait_call true f env g) as Hinv.
  destruct (wait_call true f env g) as [[o g1] tr].
  cbn [call_inv] in Hinv. destruct Hinv as (k & Hc & Hinv).
  cbn [result gate_of trace fst snd]. intros ->.
  destruct Hinv as (-> & -> & _). exists k.
  rewrite wakes_call, leave_eq, relay_trace_eq. cbn [andb]. done.
Qed.

(** C5.  Called with [counter > 0], WaitOneWakeup parks; it stays parked
    as long as no wake-up comes, and the first wake-up makes it return
    [true] after exactly one sleep, whatever the counter is by then (the
    counter it returns with is the one the other threads left, which may
    still be positive).  In the pool semantics a woken WaitOneWakeup thread
    finishes with [true] in one step, whatever the gate holds. *)
Theorem WaitOneWakeup_waits_at_most_once
    (wo : bool) (g : TLCounter) (others : list mutator) (env : list (list mutator)) :
  0 < counter g ->
  result (WaitOneWakeup wo [] g) = Sleeping false /\
  sleeps (trace (WaitOneWakeup wo [] g)) = 1%nat /\
  result (WaitOneWakeup wo (others :: env) g) = Returned true /\
  sleeps (trace (WaitOneWakeup wo (others :: env) g)) = 1%nat /\
  counter (gate_of (WaitOneWakeup wo (others :: env) g))
    = counter (run_mutators wo others g) /\
  consumed wo FnWaitOneWakeup (others :: env) (wait_enter wo FnWaitOneWakeup g)
    = others /\
  (forall w i d w',
     pool w !! i = Some (Woken FnWaitOneWakeup d) ->
     step wo w (LResume i) w' ->
     pool w' !! i = Some (Finished FnWaitOneWakeup true)).
Proof.
  intros Hpos.
  assert (Henter : wait_enter wo FnWaitOneWakeup g =
    (Sleeping false, mkTLCounter (counter g) (int32 (numWaiters g + 1)),
     [Lock; CvWait])).
  { rewrite wait_enter_eq. by destruct (Z.ltb_spec 0 (counter g)); [|lia]. }
  set (g0 := mkTLCounter (counter g) (int32 (numWaiters g + 1))) in *.
  set (g1 := mkTLCounter (counter (run_mutators wo others g0))
               (int32 (numWaiters (run_mutators wo others g0) - 1))).
  assert (Hwake : wake_step wo FnWaitOneWakeup others g0 [Lock; CvWait] =
    (Returned true, g1, Lock :: replicate 1 CvWait ++ relay_trace wo g1 ++ [Unlock])).
  { unfold wake_step. cbn [wait_wakeup]. by rewrite WaitOneWakeup_wakeup_eq. }
  unfold WaitOneWakeup, wait_call. rewrite Henter.
  rewrite wait_resume_sleeping, consumed_sleeping, Hwake.
  rewrite wait_resume_returned, consumed_returned, app_nil_r.
  cbn [wait_resume result gate_of trace fst snd].
  split; [done|]. split; [done|]. split; [done|].
  split; [apply (sleeps_call wo 1)|]. split; [by apply run_mutators_counter_ext|].
  split; [done|].
  - intros w i d w' Hi Hs.
    destruct (step_resume_self wo _ _ _ Hs) as (f & d' & Hi' & Hafter & _).
    rewrite Hi in Hi'. injection Hi' as <- <-.
    rewrite Hafter. cbn [wait_wakeup]. by rewrite WaitOneWakeup_wakeup_eq.
Qed.

(** C10.  The wait operations never write [counter]: each of their
    critical sections leaves it as found, so the counter a wait call stops
    with is the one obtained by applying to the entry gate just the
    mutating calls the other threads made meanwhile; and in the pool
    semantics every step that is not a mutating call keeps the counter. *)
Theorem waits_leave_counter_alone (wo : bool) :
  (forall f g, counter (gate_of (wait_enter wo f g)) = counter g) /\
  (forall f g, counter (gate_of (wait_wakeup wo f g)) = counter g) /\
  (forall f env g,
     counter (gate_of (wait_call wo f env g))
     = counter (run_mutators wo (consumed wo f env (wait_enter wo f g)) g)) /\
  (forall w l w',
     step wo w l w' -> (forall op, l <> LMut op) ->
     counter (gate w') = counter (gate w)).
Proof.
  split; [apply wait_enter_counter|]. split; [apply wait_wakeup_counter|]. split.
  - intros f env g. pose proof (call_inv_wait_call wo f env g) as Hinv.
    destruct (wait_call wo f env g) as [[o g1] tr].
    cbn [call_inv] in Hinv. by destruct Hinv as (k & Hc & _).
  - intros w l w' Hs Hl. rewrite (step_counter wo _ _ _ Hs).
    destruct l; [by destruct (Hl op)|done..].
Qed.

(** C3 (as amended).  Decrement returns the old counter minus 1 and
    Subtract(n) the old counter minus n, computed in [int32_t]: exactly
    the mathematical difference whenever that difference is representable.
    The value returned is the new counter.  Each issues exactly one wake
    (of the kind the policy selects) when the new counter is [<= 0] and
    none otherwise.  Both may be called on a gate that is already drained;
    when the difference is representable and [n >= 0] the gate stays
    drained. *)
Theorem Decrement_Subtract_wake_when_drained (wo : bool) (g : TLCounter) (n : Z) :
  let d := Decrement wo g in
  let s := Subtract wo n g in
  (result d = int32 (counter g - 1) /\ result s = int32 (counter g - n)) /\
  (in_int32 (counter g - 1) -> result d = counter g - 1) /\
  (in_int32 (counter g - n) -> result s = counter g - n) /\
  (counter (gate_of d) = result d /\ counter (gate_of s) = result s) /\
  (trace d = Lock :: (if result d <=? 0 then [notify_ev wo] else []) ++ [Unlock] /\
   wakes (trace d) = (if result d <=? 0 then 1%nat else 0%nat)) /\
  (trace s = Lock :: (if result s <=? 0 then [notify_ev wo] else []) ++ [Unlock] /\
   wakes (trace s) = (if result s <=? 0 then 1%nat else 0%nat)) /\
  (counter g <= 0 -> in_int32 (counter g - 1) ->
     result d < counter g /\ wakes (trace d) = 1%nat) /\
  (counter g <= 0 -> 0 <= n -> in_int32 (counter g - n) ->
     result s <= counter g /\ wakes (trace s) = 1%nat).
Proof.
  cbv zeta. rewrite Decrement_eq, !Subtract_eq. cbn [result gate_of trace fst snd counter].
  assert (Hw : forall c : Z,
    wakes (Lock :: (if c <=? 0 then [notify_ev wo] else []) ++ [Unlock])
    = if c <=? 0 then 1%nat else 0%nat).
  { intros c. unfold notify_ev. by destruct (c <=? 0), wo. }
  split; [done|]. split; [apply int32_id|]. split; [apply int32_id|].
  split; [done|]. split; [by rewrite Hw|]. split; [by rewrite Hw|]. split.
  - intros Hle Hr. rewrite Hw, (int32_id _ Hr).
    split; [lia|]. by destruct (Z.leb_spec (counter g - 1) 0); [|lia].
  - intros Hle Hn Hr. rewrite Hw, (int32_id _ Hr).
    split; [lia|]. by destruct (Z.leb_spec (counter g - n) 0); [|lia].
Qed.


(** C7 (as amended).  Starting from the constructed gate, the counter
    after any sequence of Increment / Decrement / Add / Subtract calls is
    the net signed delta of the sequence reduced to [int32_t]; it is the
    net delta itself whenever that is representable, and it does not depend
    on the order in which the mutex serializes the calls. *)
Theorem balance_modulo_int32 (wo : bool) (ops : list mutator) :
  counter (run_mutators wo ops TLCounter_new) = int32 (net_delta ops) /\
  (in_int32 (net_delta ops) ->
     counter (run_mutators wo ops TLCounter_new) = net_delta ops) /\
  (forall ops', Permutation ops ops' ->
     counter (run_mutators wo ops' TLCounter_new)
     = counter (run_mutators wo ops TLCounter_new)).
Proof.
  assert (H0 : in_int32 (counter TLCounter_new)).
  { unfold in_int32, INT32_MIN, INT32_MAX. cbn. lia. }
  assert (E : forall l, counter (run_mutators wo l TLCounter_new) = int32 (net_delta l)).
  { intros l. by rewrite (run_mutators_counter wo l _ H0). }
  split; [apply E|]. split.
  - intros Hr. rewrite E. by apply int32_id.
  - intros ops' Hp. rewrite !E. f_equal. symmetry. by apply net_delta_Permutation.
Qed.

(** C8 (as amended).  In every state an [N]-thread pool can reach,
    [numWaiters] is the number of threads inside a wait call, hence
    [0 <= numWaiters <= N]; it is 0 at construction.  The mutating
    operations never write it; entering a wait adds one exactly when the
    thread parks; the section after [condVar.wait] subtracts one, and adds
    one again exactly when it parks again.  A wait call that returns has
    changed [numWaiters] by nothing of its own: against other threads that
    only make mutating calls it leaves [numWaiters] as it found it, and in
    the pool the value at its return is the value at its entry plus the
    change in the number of other threads inside a wait call, so the two
    are equal exactly when that number is the same at both ends. *)
Theorem numWaiters_counts_waiters (wo : bool) (N : nat) :
  Z.of_nat N <= INT32_MAX ->
  numWaiters (gate (init N)) = 0 /\
  (forall w, reachable wo N w ->
     numWaiters (gate w) = Z.of_nat (waiting (pool w)) /\
     0 <= numWaiters (gate w) <= Z.of_nat N) /\
  (forall op g, numWaiters (gate_of (call_mutator wo op g)) = numWaiters g) /\
  (forall f g,
     numWaiters (gate_of (wait_enter wo f g)) =
     match result (wait_enter wo f g) with
     | Sleeping _ => int32 (numWaiters g + 1)
     | Returned _ => numWaiters g
     end) /\
  (forall f g,
     numWaiters (gate_of (wait_wakeup wo f g)) =
     match result (wait_wakeup wo f g) with
     | Sleeping _ => int32 (int32 (numWaiters g - 1) + 1)
     | Returned _ => int32 (numWaiters g - 1)
     end) /\
  (forall f env g d,
     in_int32 (numWaiters g) ->
     result (wait_call wo f env g) = Returned d ->
     numWaiters (gate_of (wait_call wo f env g)) = numWaiters g) /\
  (forall w i f w1 ls w' d,
     reachable wo N w ->
     step wo w (LCall i f) w1 ->
     exec wo (fun _ => True) w1 ls w' ->
     pool w' !! i = Some (Finished f d) ->
     numWaiters (gate w') =
       numWaiters (gate w)
       + (Z.of_nat (others_waiting (pool w') i) - Z.of_nat (others_waiting (pool w) i)) /\
     (numWaiters (gate w') = numWaiters (gate w) <->
      others_waiting (pool w') i = others_waiting (pool w) i)).
Proof.
  intros HN. split; [done|]. split; [|split; [|split; [|split; [|split]]]].
  - intros w Hr. pose proof (accounted_reachable wo N w HN Hr) as Hacc.
    split; [apply Hacc|by apply accounted_bounds].
  - intros op g. apply call_mutator_numWaiters.
  - intros f g. rewrite wait_enter_eq. by destruct (0 <? counter g).
  - intros f g. destruct f; cbn [wait_wakeup].
    + rewrite WaitUntilZero_wakeup_eq. cbv zeta. by destruct (0 <? counter g).
    + by rewrite WaitOneWakeup_wakeup_eq.
  - intros f env g d Hr. pose proof (call_inv_wait_call wo f env g) as Hinv.
    destruct (wait_call wo f env g) as [[o g1] tr].
    cbn [call_inv] in Hinv. destruct Hinv as (k & _ & Hinv).
    cbn [result gate_of fst snd]. intros ->.
    destruct Hinv as (_ & _ & -> & _). destruct d; [by apply int32_id|done].
  - intros w i f w1 ls w' d Hr Hs Hex Hfin.
    pose proof (accounted_reachable wo N w HN Hr) as Hacc.
    pose proof (accounted_step wo N _ _ _ HN Hacc Hs) as Hacc1.
    pose proof (accounted_exec wo N _ _ _ _ HN Hacc1 Hex) as Hacc'.
    destruct Hacc as [_ HW]. destruct Hacc' as [_ HW'].
    assert (Hentry : others_waiting (pool w) i = waiting (pool w)).
    { inversion Hs as [|w0 i0 f0 t p' Hi Hc Hd| |]; subst.
      apply (waiting_insert_same _ _ _ _ Hi). by rewrite (can_call_not_waiting _ Hc). }
    assert (Hexit : others_waiting (pool w') i = waiting (pool w')).
    { by apply (waiting_insert_same _ _ _ _ Hfin). }
    rewrite Hentry, Hexit, HW, HW'. split; lia.
Qed.

(** C9.  Take any state an [N]-thread pool has reached, let a Decrement or
    a Subtract bring the counter to [<= 0], and let the pool run on in any
    way that keeps the counter [<= 0].  Then, under wake-one-with-relay and
    under wake-all alike: as long as some thread is still inside a wait
    call, some thread is woken and its next step is enabled; every step of
    a woken thread returns from its wait call with [true] and lowers the
    number of waiters by one; no step raises that number; and running the
    woken threads, one step per waiter, empties the gate: every thread that
    was blocked in WaitUntilZero (or WaitOneWakeup) has returned [true]. *)
Theorem drain_wakes_all_waiters
    (wo : bool) (N : nat) (w0 : World) (op : mutator) (w1 : World)
    (ls : list label) (w2 : World) :
  Z.of_nat N <= INT32_MAX ->
  reachable wo N w0 ->
  (op = OpDecrement \/ exists n, op = OpSubtract n) ->
  step wo w0 (LMut op) w1 ->
  drained w1 ->
  exec wo drained w1 ls w2 ->
  (forall j f, blocked_in f (pool w0) j -> blocked_in f (pool w1) j) /\
  ((1 <= waiting (pool w2))%nat -> some_woken (pool w2)) /\
  (forall i f d, pool w2 !! i = Some (Woken f d) ->
     exists w3, step wo w2 (LResume i) w3) /\
  (forall i w3, step wo w2 (LResume i) w3 ->
     (exists f d, pool w2 !! i = Some (Woken f d) /\
                  pool w3 !! i = Some (Finished f true)) /\
     S (waiting (pool w3)) = waiting (pool w2) /\
     drained w3) /\
  (forall l w3, step wo w2 l w3 -> (waiting (pool w3) <= waiting (pool w2))%nat) /\
  (exists ls' w3,
     exec wo drained w2 ls' w3 /\ Forall is_resume ls' /\
     length ls' = waiting (pool w2) /\
     waiting (pool w3) = 0%nat /\
     (forall j f, blocked_in f (pool w2) j ->
        pool w3 !! j = Some (Finished f true))).
Proof.
  intros HN Hreach Hop Hstep Hdr Hexec.
  assert (Hl1 : live wo N w1).
  { split; [|split; [|done]].
    - eapply accounted_step; [exact HN| |exact Hstep].
      by apply (accounted_reachable wo).
    - by eapply chain_established. }
  pose proof (live_exec wo N _ _ _ HN Hl1 Hexec) as Hl2.
  pose proof Hl2 as (_ & _ & Hdr2).
  split.
  { intros j f Hb. inversion Hstep as [w op0 p' Hok Hd| | |]; subst. cbn [pool].
    destruct Hb as [d [Hj|Hj]];
      destruct (deliver_lookup _ _ _ j Hd) as [E|(f' & d' & E1 & E2)];
      exists d; rewrite Hj in *.
    - by left.
    - injection E1 as <- <-. by right.
    - by right.
    - done. }
  split; [by apply (live_progress wo N)|]. split; [apply resume_enabled|].
  split; [|split].
  - intros i w3 Hs.
    destruct (resume_returns wo _ _ _ Hdr2 Hs) as (Hfin & Hcnt & Hctr & _).
    split; [done|]. split; [done|]. unfold drained in *. lia.
  - intros l w3 Hs. by eapply waiting_step_drained.
  - destruct (chain_completes wo N HN _ w2 Hl2 eq_refl)
      as (ls' & w3 & Hex & Hres & Hlen & Hz & _ & Hall).
    by exists ls', w3.
Qed.

(** * Concrete runs *)

Lemma step_mut_to (wo : bool) (w : World) (op : mutator) (g' : TLCounter)
    (tr : list event) (p' : list tstate) :
  mutator_ok op ->
  call_mutator wo op (gate w) = (counter g', g', tr) ->
  deliver tr (pool w) p' ->
  step wo w (LMut op) (mkWorld g' p').
Proof.
  intros Hok E Hd.
  replace g' with (gate_of (call_mutator wo op (gate w))) by (by rewrite E).
  apply step_mut; [done|]. by rewrite E.
Qed.

Lemma step_call_to (wo : bool) (w : World) (i : nat) (f : wait_fn) (t : tstate)
    (o : outcome) (g' : TLCounter) (tr : list event) (p' : list tstate) :
  pool w !! i = Some t -> can_call t = true ->
  wait_enter wo f (gate w) = (o, g', tr) ->
  deliver tr (<[i := after f o]> (pool w)) p' ->
  step wo w (LCall i f) (mkWorld g' p').
Proof.
  intros Hi Hc E Hd.
  replace g' with (gate_of (wait_enter wo f (gate w))) by (by rewrite E).
  eapply step_call; [exact Hi|exact Hc|]. by rewrite E.
Qed.

Lemma deliver_quiet (tr : list event) (p : list tstate) :
  wakes tr = 0%nat -> deliver tr p p.
Proof.
  induction tr as [|e tr IH]; intros Hw; [constructor|].
  unfold wakes in Hw. cbn [count_if] in Hw.
  destruct (is_notify e) eqn:E; [lia|].
  econstructor; [by apply cv_other|]. by apply IH.
Qed.

(** One thread: Increment, then the thread calls WaitUntilZero and parks. *)
Example one_waiter_parked :
  reachable true 1
    (mkWorld (mkTLCounter 1 1) [Parked FnWaitUntilZero false]).
Proof.
  exists ([LMut OpIncrement] ++ [LCall 0 FnWaitUntilZero]).
  eapply exec_step; [eapply (exec_step _ _ _ [] _ (LMut OpIncrement));
                     [apply exec_refl| |exact I]| |exact I].
  - apply (step_mut_to true (init 1) OpIncrement (mkTLCounter 1 0) [Lock; Unlock] [Idle]);
      [done|reflexivity|by apply deliver_quiet].
  - apply (step_call_to true (mkWorld (mkTLCounter 1 0) [Idle]) 0 FnWaitUntilZero Idle
             (Sleeping false) (mkTLCounter 1 1) [Lock; CvWait]);
      [reflexivity|reflexivity|reflexivity|by apply deliver_quiet].
Qed.

(** The Decrement that drains the gate wakes the parked thread. *)
Example one_waiter_drained :
  step true (mkWorld (mkTLCounter 1 1) [Parked FnWaitUntilZero false])
    (LMut OpDecrement)
    (mkWorld (mkTLCounter 0 1) [Woken FnWaitUntilZero false]).
Proof.
  apply (step_mut_to true _ OpDecrement (mkTLCounter 0 1) [Lock; NotifyOne; Unlock]);
    [done|reflexivity|].
  econstructor; [by apply cv_other|].
  econstructor; [apply (cv_notify_one _ 0 FnWaitUntilZero false); reflexivity|].
  by apply deliver_quiet.
Qed.


(** A spurious wake-up of the parked thread. *)
Example one_waiter_spurious :
  step true (mkWorld (mkTLCounter 1 1) [Parked FnWaitUntilZero false])
    (LSpurious 0)
    (mkWorld (mkTLCounter 1 1) [Woken FnWaitUntilZero false]).
Proof.
  exact (step_spurious true
           (mkWorld (mkTLCounter 1 1) [Parked FnWaitUntilZero false])
           0 FnWaitUntilZero false eq_refl).
Qed.

Lemma step_resume_to (wo : bool) (w : World) (i : nat) (f : wait_fn) (d : bool)
    (o : outcome) (g' : TLCounter) (tr : list event) (p' : list tstate) :
  pool w !! i = Some (Woken f d) ->
  wait_wakeup wo f (gate w) = (o, g', tr) ->
  deliver tr (<[i := after f o]> (pool w)) p' ->
  step wo w (LResume i) (mkWorld g' p').
Proof.
  intros Hi E Hd.
  replace g' with (gate_of (wait_wakeup wo f (gate w))) by (by rewrite E).
  eapply step_resume; [exact Hi|]. by rewrite E.
Qed.

(** Two threads: after an Increment thread 0 is about to call
    WaitUntilZero with [numWaiters = 0]. *)
Example two_waiters_entry :
  reachable true 2 (mkWorld (mkTLCounter 1 0) [Idle; Idle]).
Proof.
  exists ([] ++ [LMut OpIncrement]).
  eapply exec_step; [apply exec_refl| |exact I].
  apply (step_mut_to true (init 2) OpIncrement (mkTLCounter 1 0) [Lock; Unlock]
           [Idle; Idle]); [done|reflexivity|by apply deliver_quiet].
Qed.

Example two_waiters_first_call :
  step true (mkWorld (mkTLCounter 1 0) [Idle; Idle])
    (LCall 0 FnWaitUntilZero)
    (mkWorld (mkTLCounter 1 1) [Parked FnWaitUntilZero false; Idle]).
Proof.
  apply (step_call_to true (mkWorld (mkTLCounter 1 0) [Idle; Idle]) 0 FnWaitUntilZero Idle
           (Sleeping false) (mkTLCounter 1 1) [Lock; CvWait]);
    [reflexivity|reflexivity|reflexivity|by apply deliver_quiet].
Qed.

(** Thread 1 parks as well, the Decrement drains the gate and wakes thread
    0, and thread 0 returns, relaying the wake to thread 1. *)
Example two_waiters_run :
  exec true (fun _ => True)
    (mkWorld (mkTLCounter 1 1) [Parked FnWaitUntilZero false; Idle])
    [LCall 1 FnWaitUntilZero; LMut OpDecrement; LResume 0]
    (mkWorld (mkTLCounter 0 1) [Finished FnWaitUntilZero true; Woken FnWaitUntilZero false]).
Proof.
  apply (exec_cons true _ _ _ (mkWorld (mkTLCounter 1 2) [Parked FnWaitUntilZero false; Parked FnWaitUntilZero false])); [|exact I|].
  { apply (step_call_to true (mkWorld (mkTLCounter 1 1) [Parked FnWaitUntilZero false; Idle]) 1 FnWaitUntilZero Idle
             (Sleeping false) (mkTLCounter 1 2) [Lock; CvWait]);
      [reflexivity|reflexivity|reflexivity|by apply deliver_quiet]. }
  apply (exec_cons true _ _ _ (mkWorld (mkTLCounter 0 2) [Woken FnWaitUntilZero false; Parked FnWaitUntilZero false])); [|exact I|].
  { apply (step_mut_to true (mkWorld (mkTLCounter 1 2) [Parked FnWaitUntilZero false; Parked FnWaitUntilZero false]) OpDecrement (mkTLCounter 0 2)
             [Lock; NotifyOne; Unlock]); [done|reflexivity|].
    econstructor; [by apply cv_other|].
    econstructor; [apply (cv_notify_one _ 0 FnWaitUntilZero false); reflexivity|].
    by apply deliver_quiet. }
  apply (exec_cons true _ _ _ (mkWorld (mkTLCounter 0 1) [Finished FnWaitUntilZero true; Woken FnWaitUntilZero false])); [|exact I|apply exec_refl].
  apply (step_resume_to true (mkWorld (mkTLCounter 0 2) [Woken FnWaitUntilZero false; Parked FnWaitUntilZero false]) 0 FnWaitUntilZero false
           (Returned true) (mkTLCounter 0 1) [NotifyOne; Unlock]);
    [reflexivity|reflexivity|].
  econstructor; [apply (cv_notify_one _ 1 FnWaitUntilZero false); reflexivity|].
  by apply deliver_quiet.
Qed.

(** * The claims on concrete inputs *)

(** A caller that parks with the counter at 1, is woken once too early and
    once after the Decrement, returns [true] on a drained gate. *)
Lemma WaitUntilZero_returns_only_when_drained_witness :
  result (WaitUntilZero true [[]; [OpDecrement]] (mkTLCounter 1 0)) = Returned true /\
  counter (gate_of (WaitUntilZero true [[]; [OpDecrement]] (mkTLCounter 1 0))) <= 0 /\
  (true = true <->
   (1 <= sleeps (trace (WaitUntilZero true [[]; [OpDecrement]] (mkTLCounter 1 0))))%nat).
Proof.
  split; [reflexivity|].
  apply (proj1 (WaitUntilZero_returns_only_when_drained
                  true [[]; [OpDecrement]] (mkTLCounter 1 0)) true).
  reflexivity.
Defined.

Lemma wait_on_drained_gate_returns_false_witness :
  counter (mkTLCounter 0 0) <= 0 /\
  result (WaitUntilZero true [[OpIncrement]] (mkTLCounter 0 0)) = Returned false /\
  result (WaitOneWakeup true [[OpIncrement]] (mkTLCounter 0 0)) = Returned false.
Proof.
  assert (H : counter (mkTLCounter 0 0) <= 0) by (simpl; lia).
  split; [exact H|].
  pose proof (wait_on_drained_gate_returns_false
                true [[OpIncrement]] (mkTLCounter 0 0) H) as ((E1 & _) & (E2 & _) & _).
  split; [exact E1|exact E2].
Defined.

(** One other waiter is registered: the caller sleeps once and relays. *)
Lemma relay_wake_on_every_exit_witness :
  result (wait_call true FnWaitOneWakeup [[]] (mkTLCounter 1 1)) = Returned true /\
  exists k : nat,
    trace (wait_call true FnWaitOneWakeup [[]] (mkTLCounter 1 1))
    = Lock :: replicate k CvWait
      ++ (if 0 <? numWaiters (gate_of (wait_call true FnWaitOneWakeup [[]]
                                         (mkTLCounter 1 1)))
          then [NotifyOne] else [])
      ++ [Unlock].
Proof.
  split; [reflexivity|].
  destruct (relay_wake_on_every_exit FnWaitOneWakeup [[]] (mkTLCounter 1 1) true
              eq_refl) as (k & Htr & _).
  exists k. exact Htr.
Defined.

(** The counter is 2, one Decrement runs during the sleep: WaitOneWakeup
    returns [true] with the counter still at 1. *)
Lemma WaitOneWakeup_waits_at_most_once_witness :
  0 < counter (mkTLCounter 2 0) /\
  result (WaitOneWakeup true [[OpDecrement]] (mkTLCounter 2 0)) = Returned true /\
  sleeps (trace (WaitOneWakeup true [[OpDecrement]] (mkTLCounter 2 0))) = 1%nat /\
  counter (gate_of (WaitOneWakeup true [[OpDecrement]] (mkTLCounter 2 0))) = 1.
Proof.
  assert (H : 0 < counter (mkTLCounter 2 0)) by (simpl; lia).
  split; [exact H|].
  pose proof (WaitOneWakeup_waits_at_most_once
                true (mkTLCounter 2 0) [OpDecrement] [] H)
    as (_ & _ & E1 & E2 & E3 & _).
  split; [exact E1|]. split; [exact E2|]. rewrite E3. reflexivity.
Defined.

Lemma waits_leave_counter_alone_witness :
  counter (gate (mkWorld (mkTLCounter 1 1) [Woken FnWaitUntilZero false]))
  = counter (gate (mkWorld (mkTLCounter 1 1) [Parked FnWaitUntilZero false])).
Proof.
  apply (proj2 (proj2 (proj2 (waits_leave_counter_alone true)))
           _ (LSpurious 0) _ one_waiter_spurious).
  intros op. discriminate.
Defined.

Lemma Decrement_Subtract_wake_when_drained_witness :
  in_int32 (counter (mkTLCounter 1 0) - 1) /\
  result (Decrement true (mkTLCounter 1 0)) = counter (mkTLCounter 1 0) - 1 /\
  wakes (trace (Decrement true (mkTLCounter 1 0))) = 1%nat.
Proof.
  assert (H : in_int32 (counter (mkTLCounter 1 0) - 1)).
  { unfold in_int32, INT32_MIN, INT32_MAX. simpl. lia. }
  split; [exact H|].
  pose proof (Decrement_Subtract_wake_when_drained true (mkTLCounter 1 0) 1)
    as (_ & E & _ & _ & (_ & Ew) & _).
  split; [exact (E H)|]. rewrite Ew. reflexivity.
Defined.

(** At [INT32_MIN] the decrement wraps: the value returned is not the old
    counter minus 1, the gate is no longer drained and no wake is issued. *)
Lemma Decrement_at_INT32_MIN_wraps :
  in_int32 (counter (mkTLCounter INT32_MIN 0)) /\
  result (Decrement true (mkTLCounter INT32_MIN 0)) = INT32_MAX /\
  result (Decrement true (mkTLCounter INT32_MIN 0))
    <> counter (mkTLCounter INT32_MIN 0) - 1 /\
  result (Subtract true 1 (mkTLCounter INT32_MIN 0))
    <> counter (mkTLCounter INT32_MIN 0) - 1 /\
  ~ result (Decrement true (mkTLCounter INT32_MIN 0))
    < counter (mkTLCounter INT32_MIN 0).
Proof.
  assert (E : result (Decrement true (mkTLCounter INT32_MIN 0)) = INT32_MAX)
    by reflexivity.
  change (Subtract true 1 (mkTLCounter INT32_MIN 0))
    with (Decrement true (mkTLCounter INT32_MIN 0)).
  rewrite E. unfold in_int32, INT32_MIN, INT32_MAX. simpl. lia.
Qed.



Lemma balance_modulo_int32_witness :
  in_int32 (net_delta [OpIncrement; OpAdd 5; OpSubtract 2; OpDecrement]) /\
  Permutation [OpIncrement; OpAdd 5; OpSubtract 2; OpDecrement]
              [OpAdd 5; OpIncrement; OpSubtract 2; OpDecrement] /\
  counter (run_mutators true [OpIncrement; OpAdd 5; OpSubtract 2; OpDecrement]
             TLCounter_new) = 3 /\
  counter (run_mutators true [OpAdd 5; OpIncrement; OpSubtract 2; OpDecrement]
             TLCounter_new) = 3.
Proof.
  assert (H : in_int32 (net_delta [OpIncrement; OpAdd 5; OpSubtract 2; OpDecrement])).
  { unfold in_int32, INT32_MIN, INT32_MAX. simpl. lia. }
  assert (P : Permutation [OpIncrement; OpAdd 5; OpSubtract 2; OpDecrement]
                          [OpAdd 5; OpIncrement; OpSubtract 2; OpDecrement])
    by apply perm_swap.
  pose proof (balance_modulo_int32 true
                [OpIncrement; OpAdd 5; OpSubtract 2; OpDecrement]) as (_ & E & E').
  split; [exact H|]. split; [exact P|]. split; [exact (E H)|].
  rewrite (E' _ P). exact (E H).
Defined.

(** Add(INT32_MAX) then Increment: both arguments are legal, the net delta
    is 2^31 and the counter is INT32_MIN. *)
Lemma balance_overflow :
  mutator_ok (OpAdd 2147483647) /\ mutator_ok OpIncrement /\
  net_delta [OpAdd 2147483647; OpIncrement] = 2147483648 /\
  counter (run_mutators true [OpAdd 2147483647; OpIncrement] TLCounter_new)
    = INT32_MIN /\
  counter (run_mutators true [OpAdd 2147483647; OpIncrement] TLCounter_new)
    <> net_delta [OpAdd 2147483647; OpIncrement].
Proof.
  assert (E : counter (run_mutators true [OpAdd 2147483647; OpIncrement] TLCounter_new)
              = INT32_MIN) by reflexivity.
  rewrite E. unfold mutator_ok, in_int32, INT32_MIN, INT32_MAX. simpl. lia.
Qed.

(** Thread 0 enters with [numWaiters = 0] and no other waiter; when it
    returns thread 1 is inside its wait, and [numWaiters] is 0 + (1 - 0). *)
Lemma numWaiters_counts_waiters_witness :
  Z.of_nat 2 <= INT32_MAX /\
  numWaiters (gate (mkWorld (mkTLCounter 1 1) [Parked FnWaitUntilZero false]))
  = Z.of_nat (waiting (pool (mkWorld (mkTLCounter 1 1) [Parked FnWaitUntilZero false]))) /\
  numWaiters (gate (mkWorld (mkTLCounter 0 1) [Finished FnWaitUntilZero true; Woken FnWaitUntilZero false]))
  = numWaiters (gate (mkWorld (mkTLCounter 1 0) [Idle; Idle]))
    + (Z.of_nat (others_waiting (pool (mkWorld (mkTLCounter 0 1) [Finished FnWaitUntilZero true; Woken FnWaitUntilZero false])) 0)
       - Z.of_nat (others_waiting (pool (mkWorld (mkTLCounter 1 0) [Idle; Idle])) 0)).
Proof.
  assert (H1 : Z.of_nat 1 <= INT32_MAX) by (unfold INT32_MAX; simpl; lia).
  assert (H2 : Z.of_nat 2 <= INT32_MAX) by (unfold INT32_MAX; simpl; lia).
  split; [exact H2|]. split.
  - apply (proj1 (proj2 (numWaiters_counts_waiters true 1 H1)) _ one_waiter_parked).
  - destruct (numWaiters_counts_waiters true 2 H2) as (_ & _ & _ & _ & _ & _ & Hcall).
    exact (proj1 (Hcall _ 0%nat FnWaitUntilZero _ _ _ true
             two_waiters_entry two_waiters_first_call two_waiters_run eq_refl)).
Defined.

(** A completed WaitUntilZero call that does not leave [numWaiters] as it
    found it: thread 0 enters with [numWaiters = 0], thread 1 parks while
    thread 0 sleeps, and thread 0 returns [true] with [numWaiters = 1]. *)
Lemma completed_wait_beside_second_waiter :
  reachable true 2 (mkWorld (mkTLCounter 1 0) [Idle; Idle]) /\
  step true (mkWorld (mkTLCounter 1 0) [Idle; Idle])
    (LCall 0 FnWaitUntilZero)
    (mkWorld (mkTLCounter 1 1) [Parked FnWaitUntilZero false; Idle]) /\
  exec true (fun _ => True)
    (mkWorld (mkTLCounter 1 1) [Parked FnWaitUntilZero false; Idle])
    [LCall 1 FnWaitUntilZero; LMut OpDecrement; LResume 0]
    (mkWorld (mkTLCounter 0 1) [Finished FnWaitUntilZero true; Woken FnWaitUntilZero false]) /\
  pool (mkWorld (mkTLCounter 0 1) [Finished FnWaitUntilZero true; Woken FnWaitUntilZero false]) !! 0%nat
    = Some (Finished FnWaitUntilZero true) /\
  numWaiters (gate (mkWorld (mkTLCounter 1 0) [Idle; Idle])) = 0 /\
  numWaiters (gate (mkWorld (mkTLCounter 0 1) [Finished FnWaitUntilZero true; Woken FnWaitUntilZero false])) = 1 /\
  numWaiters (gate (mkWorld (mkTLCounter 0 1) [Finished FnWaitUntilZero true; Woken FnWaitUntilZero false]))
    <> numWaiters (gate (mkWorld (mkTLCounter 1 0) [Idle; Idle])).
Proof.
  split; [exact two_waiters_entry|]. split; [exact two_waiters_first_call|].
  split; [exact two_waiters_run|]. split; [reflexivity|].
  split; [reflexivity|]. split; [reflexivity|]. simpl. lia.
Qed.

(** One thread parked in WaitUntilZero, the Decrement drains the gate: the
    thread is woken and one step of it empties the gate. *)
Lemma drain_wakes_all_waiters_witness :
  some_woken [Woken FnWaitUntilZero false] /\
  exists ls' w3,
    exec true drained
      (mkWorld (mkTLCounter 0 1) [Woken FnWaitUntilZero false]) ls' w3 /\
    length ls' = 1%nat /\
    pool w3 !! 0%nat = Some (Finished FnWaitUntilZero true).
Proof.
  assert (HN : Z.of_nat 1 <= INT32_MAX) by (unfold INT32_MAX; simpl; lia).
  assert (Hdr : drained (mkWorld (mkTLCounter 0 1) [Woken FnWaitUntilZero false]))
    by (unfold drained; simpl; lia).
  destruct (drain_wakes_all_waiters true 1 _ OpDecrement _ [] _
              HN one_waiter_parked (or_introl eq_refl) one_waiter_drained Hdr
              (exec_refl true drained _))
    as (_ & Hw & _ & _ & _ & ls' & w3 & Hex & _ & Hlen & _ & Hall).
  split; [apply Hw; vm_compute; lia|].
  exists ls', w3. split; [exact Hex|]. split; [exact Hlen|].
  apply Hall. exists false. right. reflexivity.
Defined.

(** * Further properties of the code *)

(** ** Mutating operations *)

Lemma gate_eta (g : TLCounter) : mkTLCounter (counter g) (numWaiters g) = g.
Proof. by destruct g. Qed.

Lemma net_delta_app (ops1 ops2 : list mutator) :
  net_delta (ops1 ++ ops2) = net_delta ops1 + net_delta ops2.
Proof. induction ops1 as [|op ops1 IH]; cbn [net_delta app]; lia. Qed.

Lemma net_delta_replicate (n : nat) (op : mutator) :
  net_delta (replicate n op) = Z.of_nat n * delta op.
Proof. induction n as [|n IH]; cbn [net_delta replicate]; lia. Qed.

(** X1.  Increment returns the new counter.  On a counter below
    [INT32_MAX] that is the old value plus 1; at [INT32_MAX] it wraps to
    [INT32_MIN].  It never issues a wake, not even when the wrap makes the
    counter non-positive: its log is the lock and the unlock, it leaves
    [numWaiters] alone, and an Increment step changes no thread of the
    pool.  It is Add(1). *)
Theorem Increment_returns_new_counter (g : TLCounter) :
  in_int32 (counter g) ->
  result (Increment g) = counter (gate_of (Increment g)) /\
  (counter g < INT32_MAX -> result (Increment g) = counter g + 1) /\
  (counter g = INT32_MAX -> result (Increment g) = INT32_MIN) /\
  numWaiters (gate_of (Increment g)) = numWaiters g /\
  trace (Increment g) = [Lock; Unlock] /\
  Increment g = Add 1 g /\
  (forall wo w w', gate w = g -> step wo w (LMut OpIncrement) w' -> pool w' = pool w).
Proof.
  intros Hr. rewrite Increment_eq. cbn [result gate_of trace fst snd counter numWaiters].
  split; [done|]. split; [|split; [|split; [done|split; [done|split; [done|]]]]].
  - intros Hlt. apply int32_id. unfold in_int32, INT32_MIN, INT32_MAX in *. lia.
  - intros ->. reflexivity.
  - intros wo w w' _ Hs. inversion Hs as [w0 op p' Hok Hd| | |]; subst. cbn [pool].
    eapply deliver_silent; [|exact Hd]. reflexivity.
Qed.

(** X2.  Add(n) and Subtract(n) undo each other, and so do Increment and
    Decrement: on a gate whose counter is an [int32_t], either order
    restores the gate exactly, for every [n], also when the intermediate
    value wraps. *)
Theorem Add_Subtract_round_trip (wo : bool) (n : Z) (g : TLCounter) :
  in_int32 (counter g) ->
  gate_of (Subtract wo n (gate_of (Add n g))) = g /\
  gate_of (Add n (gate_of (Subtract wo n g))) = g /\
  gate_of (Decrement wo (gate_of (Increment g))) = g /\
  gate_of (Increment (gate_of (Decrement wo g))) = g.
Proof.
  intros Hr.
  rewrite !Decrement_eq, !Increment_eq, !Subtract_eq, !Add_eq.
  cbn [gate_of fst snd counter numWaiters].
  rewrite !int32_sub_l, !int32_add_l.
  replace (counter g + n - n) with (counter g) by lia.
  replace (counter g - n + n) with (counter g) by lia.
  replace (counter g + 1 - 1) with (counter g) by lia.
  replace (counter g - 1 + 1) with (counter g) by lia.
  rewrite (int32_id _ Hr), gate_eta. done.
Qed.

(** X3.  Subtract decides on the new counter, not on the sign of its
    argument: Subtract(-n) stores and returns what Add(n) does, and issues
    its wake exactly when that value is [<= 0], where Add(n) issues none.
    In particular Subtract(0) leaves the gate as it is and wakes exactly
    when the gate is drained. *)
Theorem Subtract_negated_is_Add_with_wake (wo : bool) (n : Z) (g : TLCounter) :
  result (Subtract wo (- n) g) = result (Add n g) /\
  gate_of (Subtract wo (- n) g) = gate_of (Add n g) /\
  wakes (trace (Subtract wo (- n) g))
    = (if result (Add n g) <=? 0 then 1%nat else 0%nat) /\
  wakes (trace (Add n g)) = 0%nat /\
  (in_int32 (counter g) ->
     gate_of (Subtract wo 0 g) = g /\
     wakes (trace (Subtract wo 0 g)) = (if counter g <=? 0 then 1%nat else 0%nat)).
Proof.
  rewrite !Subtract_eq, Add_eq. cbn [result gate_of trace fst snd].
  replace (counter g - - n) with (counter g + n) by lia.
  replace (counter g - 0) with (counter g) by lia.
  assert (Hw : forall c : Z,
    wakes (Lock :: (if c <=? 0 then [notify_ev wo] else []) ++ [Unlock])
    = if c <=? 0 then 1%nat else 0%nat).
  { intros c. unfold notify_ev. by destruct (c <=? 0), wo. }
  rewrite !Hw. split; [done|]. split; [done|]. split; [done|]. split; [done|].
  intros Hr. by rewrite (int32_id _ Hr), gate_eta.
Qed.

(** X4.  A serialized sequence of mutating calls leaves the gate that one
    Add of its net delta leaves (counter and [numWaiters]), from any gate
    whose counter is an [int32_t]; so [n] Decrements leave the gate of
    Subtract(n) and [n] Increments the gate of Add(n). *)
Theorem run_mutators_is_one_Add (wo : bool) (ops : list mutator) (g : TLCounter) :
  in_int32 (counter g) ->
  run_mutators wo ops g = gate_of (Add (net_delta ops) g) /\
  (forall n : nat,
     run_mutators wo (replicate n OpDecrement) g
     = gate_of (Subtract wo (Z.of_nat n) g)) /\
  (forall n : nat,
     run_mutators wo (replicate n OpIncrement) g = gate_of (Add (Z.of_nat n) g)).
Proof.
  intros Hr.
  assert (E : forall l,
    run_mutators wo l g
    = mkTLCounter (int32 (counter g + net_delta l)) (numWaiters g)).
  { intros l.
    rewrite <- (gate_eta (run_mutators wo l g)).
    by rewrite run_mutators_counter, run_mutators_numWaiters. }
  split; [|split].
  - by rewrite E, Add_eq.
  - intros n. rewrite E, Subtract_eq, net_delta_replicate. cbn [gate_of fst snd delta].
    do 2 f_equal. lia.
  - intros n. rewrite E, Add_eq, net_delta_replicate. cbn [gate_of fst snd delta].
    do 2 f_equal. lia.
Qed.

(** X5.  No mutating operation ever blocks or releases the mutex early:
    the log of every call is the lock, at most one wake, and the unlock
    last, with no [CvWait]; a wake is logged only by Decrement and Subtract
    and only when the counter they leave is [<= 0]. *)
Theorem mutators_never_block (wo : bool) (op : mutator) (g : TLCounter) :
  sleeps (trace (call_mutator wo op g)) = 0%nat /\
  count_if (fun e => bool_decide (e = Lock)) (trace (call_mutator wo op g)) = 1%nat /\
  count_if (fun e => bool_decide (e = Unlock)) (trace (call_mutator wo op g)) = 1%nat /\
  head (trace (call_mutator wo op g)) = Some Lock /\
  last (trace (call_mutator wo op g)) = Some Unlock /\
  (wakes (trace (call_mutator wo op g)) <= 1)%nat /\
  (wakes (trace (call_mutator wo op g)) = 1%nat ->
     (op = OpDecrement \/ exists n, op = OpSubtract n) /\
     counter (gate_of (call_mutator wo op g)) <= 0).
Proof.
  rewrite call_mutator_eq. cbv zeta. cbn [trace gate_of fst snd counter].
  assert (Hsub : forall c : Z,
    sleeps (Lock :: (if (c <=? 0)%Z then [notify_ev wo] else []) ++ [Unlock]) = 0%nat /\
    count_if (fun e => bool_decide (e = Lock))
      (Lock :: (if (c <=? 0)%Z then [notify_ev wo] else []) ++ [Unlock]) = 1%nat /\
    count_if (fun e => bool_decide (e = Unlock))
      (Lock :: (if (c <=? 0)%Z then [notify_ev wo] else []) ++ [Unlock]) = 1%nat /\
    head (Lock :: (if (c <=? 0)%Z then [notify_ev wo] else []) ++ [Unlock]) = Some Lock /\
    last (Lock :: (if (c <=? 0)%Z then [notify_ev wo] else []) ++ [Unlock]) = Some Unlock /\
    (wakes (Lock :: (if (c <=? 0)%Z then [notify_ev wo] else []) ++ [Unlock]) <= 1)%nat /\
    (wakes (Lock :: (if (c <=? 0)%Z then [notify_ev wo] else []) ++ [Unlock]) = 1%nat ->
       (c <= 0)%Z)).
  { intros c. unfold notify_ev.
    destruct (Z.leb_spec c 0), wo; cbn; repeat split; try done; lia. }
  destruct op as [| |n|n]; cbn [delta].
  - cbn. repeat split; try done; lia.
  - destruct (Hsub (int32 (counter g + -1))) as (H1 & H2 & H3 & H4 & H5 & H6 & H7).
    repeat split; try done; [by left|by apply H7].
  - cbn. repeat split; try done; lia.
  - destruct (Hsub (int32 (counter g + - n))) as (H1 & H2 & H3 & H4 & H5 & H6 & H7).
    repeat split; try done; [right; by exists n|by apply H7].
Qed.

(** ** Wait operations *)

Section WaitExtras.
Variable wo : bool.

Lemma count_if_replicate_false {A} (p : A -> bool) (x : A) (k : nat) :
  p x = false -> count_if p (replicate k x) = 0%nat.
Proof. intros E. induction k as [|k IH]; cbn; [done|]. by rewrite E, IH. Qed.

Lemma count_if_relay (p : event -> bool) (g : TLCounter) :
  p NotifyOne = false -> count_if p (relay_trace wo g) = 0%nat.
Proof.
  intros E. rewrite relay_trace_eq. destruct wo, (0 <? numWaiters g); cbn; try done.
  by rewrite E.
Qed.

Lemma wait_resume_app f env1 env2 st :
  wait_resume wo f (env1 ++ env2) st
  = wait_resume wo f env2 (wait_resume wo f env1 st).
Proof.
  revert st; induction env1 as [|others env1 IH]; intros [[[d|d] g] tr].
  - by destruct env2.
  - by destruct env2.
  - rewrite <- app_comm_cons, !wait_resume_sleeping. apply IH.
  - by rewrite !wait_resume_returned.
Qed.

Lemma consumed_app f env1 env2 st :
  consumed wo f (env1 ++ env2) st
  = consumed wo f env1 st ++ consumed wo f env2 (wait_resume wo f env1 st).
Proof.
  revert st; induction env1 as [|others env1 IH]; intros [[[d|d] g] tr].
  - by destruct env2.
  - by destruct env2.
  - rewrite <- app_comm_cons, !consumed_sleeping, wait_resume_sleeping, IH.
    by rewrite app_assoc.
  - by rewrite !consumed_returned, wait_resume_returned, consumed_returned.
Qed.

Lemma premature_ext env g g' :
  counter g = counter g' -> premature wo env g -> premature wo env g'.
Proof.
  revert g g'; induction env as [|others env IH]; intros g g' E; [done|].
  cbn [premature]. intros [Hpos Hrest].
  pose proof (run_mutators_counter_ext wo others g g' E) as E'.
  split; [lia|]. by apply (IH _ _ E').
Qed.

(** A parked WaitUntilZero caller whose wake-ups are all premature is
    parked again after each of them. *)
Lemma WaitUntilZero_resume_premature env : forall d g tr,
  premature wo env g ->
  exists g',
    wait_resume wo FnWaitUntilZero env (Sleeping d, g, tr)
    = (Sleeping (if env is [] then d else true), g',
       tr ++ replicate (length env) CvWait) /\
    counter g' = counter (run_mutators wo (concat env) g) /\
    consumed wo FnWaitUntilZero env (Sleeping d, g, tr) = concat env.
Proof.
  induction env as [|others env IH]; intros d g tr Hp.
  - exists g. cbn. by rewrite app_nil_r.
  - destruct Hp as [Hpos Hrest].
    rewrite wait_resume_sleeping, consumed_sleeping.
    unfold wake_step. cbn [wait_wakeup]. rewrite WaitUntilZero_wakeup_eq. cbv zeta.
    destruct (Z.ltb_spec 0 (counter (run_mutators wo others g))) as [_|Hle]; [|lia].
    set (g1 := mkTLCounter (counter (run_mutators wo others g))
                 (int32 (int32 (numWaiters (run_mutators wo others g) - 1) + 1))).
    destruct (IH true g1 (tr ++ [CvWait])) as (g' & E & Hc & Hcons).
    { by apply (premature_ext env (run_mutators wo others g)). }
    exists g'. rewrite E, Hcons. split; [|split; [|done]].
    + f_equal; [f_equal; by destruct env|].
      rewrite <- app_assoc. cbn [length replicate app]. reflexivity.
    + rewrite Hc. cbn [concat]. rewrite run_mutators_app.
      by apply run_mutators_counter_ext.
Qed.

End WaitExtras.

(** X6.  A wait call notifies only through the relay.  Its log starts
    with the one lock it takes; it issues at most one wake; under wake-all
    ([TL_WAKE_ONE = 0]) it issues none.  A caller that is still parked has
    issued no wake and logged no unlock, its last event being the
    [CvWait] it sleeps in; a caller that has returned unlocked exactly
    once, as its last event. *)
Theorem waits_notify_only_by_relay
    (wo : bool) (f : wait_fn) (env : list (list mutator)) (g : TLCounter) :
  let r := wait_call wo f env g in
  head (trace r) = Some Lock /\
  count_if (fun e => bool_decide (e = Lock)) (trace r) = 1%nat /\
  (wakes (trace r) <= 1)%nat /\
  (wo = false -> wakes (trace r) = 0%nat) /\
  (forall d, result r = Sleeping d ->
     wakes (trace r) = 0%nat /\
     last (trace r) = Some CvWait /\
     count_if (fun e => bool_decide (e = Unlock)) (trace r) = 0%nat) /\
  (forall d, result r = Returned d ->
     last (trace r) = Some Unlock /\
     count_if (fun e => bool_decide (e = Unlock)) (trace r) = 1%nat).
Proof.
  cbv zeta. pose proof (call_inv_wait_call wo f env g) as Hinv.
  destruct (wait_call wo f env g) as [[o g1] tr].
  cbn [call_inv] in Hinv. destruct Hinv as (k & _ & Hinv).
  cbn [result trace fst snd].
  assert (HL : count_if (fun e => bool_decide (e = Lock)) (replicate k CvWait) = 0%nat)
    by (by apply count_if_replicate_false).
  assert (HU : count_if (fun e => bool_decide (e = Unlock)) (replicate k CvWait) = 0%nat)
    by (by apply count_if_replicate_false).
  destruct o as [d|d].
  - destruct Hinv as (-> & Hk & _).
    assert (Hw : wakes (Lock :: replicate k CvWait) = 0%nat).
    { unfold wakes. cbn [count_if is_notify]. apply (wakes_replicate k). }
    split; [done|]. split; [cbn [count_if]; by rewrite HL|].
    split; [lia|]. split; [done|]. split; [|by intros d' [=]].
    intros d' _. split; [done|]. split; [|cbn [count_if]; by rewrite HU].
    destruct k as [|k]; [lia|].
    rewrite replicate_S_end, app_comm_cons. apply last_snoc.
  - destruct Hinv as (-> & _).
    split; [done|]. split.
    { cbn [count_if]. rewrite !count_if_app, HL, (count_if_relay wo) by reflexivity.
      reflexivity. }
    rewrite wakes_call. split; [destruct wo, (0 <? numWaiters g1); cbn; lia|].
    split; [intros E; by rewrite E|]. split; [by intros d' [=]|].
    intros d' _. split.
    + rewrite app_comm_cons, !app_assoc. apply last_snoc.
    + cbn [count_if]. rewrite !count_if_app, HU, (count_if_relay wo) by reflexivity.
      reflexivity.
Qed.

(** X7.  WaitUntilZero sleeps exactly until the first wake-up that finds
    the counter [<= 0].  Entered with [counter > 0], as long as every
    wake-up finds the counter positive it is parked again, having slept
    once more than it was woken and consumed all the calls of the others;
    the first wake-up that finds [counter <= 0] makes it return [true]
    after that many sleeps, and what the others do later is not looked
    at. *)
Theorem WaitUntilZero_sleeps_until_first_drained
    (wo : bool) (env : list (list mutator)) (others : list mutator)
    (rest : list (list mutator)) (g : TLCounter) :
  0 < counter g ->
  premature wo env g ->
  (result (WaitUntilZero wo env g) = Sleeping (bool_decide (1 <= length env)%nat) /\
   sleeps (trace (WaitUntilZero wo env g)) = S (length env) /\
   consumed wo FnWaitUntilZero env (wait_enter wo FnWaitUntilZero g) = concat env) /\
  (counter (run_mutators wo (concat env ++ others) g) <= 0 ->
   result (WaitUntilZero wo (env ++ others :: rest) g) = Returned true /\
   sleeps (trace (WaitUntilZero wo (env ++ others :: rest) g)) = S (length env) /\
   consumed wo FnWaitUntilZero (env ++ others :: rest) (wait_enter wo FnWaitUntilZero g)
     = concat env ++ others /\
   counter (gate_of (WaitUntilZero wo (env ++ others :: rest) g))
     = counter (run_mutators wo (concat env ++ others) g)).
Proof.
  intros Hpos Hp.
  assert (Henter : wait_enter wo FnWaitUntilZero g =
    (Sleeping false, mkTLCounter (counter g) (int32 (numWaiters g + 1)),
     [Lock; CvWait])).
  { rewrite wait_enter_eq. by destruct (Z.ltb_spec 0 (counter g)); [|lia]. }
  set (g0 := mkTLCounter (counter g) (int32 (numWaiters g + 1))) in *.
  destruct (WaitUntilZero_resume_premature wo env false g0 [Lock; CvWait])
    as (g' & E & Hc & Hcons).
  { by apply (premature_ext wo env g). }
  assert (Hd : (if env is [] then false else true) = bool_decide (1 <= length env)%nat).
  { destruct env; [done|]. symmetry. apply bool_decide_eq_true. cbn. lia. }
  assert (Hs : sleeps ([Lock; CvWait] ++ replicate (length env) CvWait) = S (length env)).
  { change ([Lock; CvWait] ++ replicate (length env) CvWait)
      with (Lock :: replicate (S (length env)) CvWait).
    unfold sleeps. cbn [count_if is_sleep]. apply (sleeps_replicate (S (length env))). }
  unfold WaitUntilZero, wait_call. rewrite Henter. split.
  - rewrite E, Hcons, <- Hd. cbn [result trace fst snd]. by rewrite Hs.
  - intros Hle.
    rewrite wait_resume_app, consumed_app, E, Hcons.
    rewrite wait_resume_sleeping, consumed_sleeping.
    assert (Hc' : counter (run_mutators wo others g')
                  = counter (run_mutators wo (concat env ++ others) g)).
    { rewrite run_mutators_app. apply run_mutators_counter_ext.
      rewrite Hc. by apply run_mutators_counter_ext. }
    unfold wake_step. cbn [wait_wakeup]. rewrite WaitUntilZero_wakeup_eq. cbv zeta.
    destruct (Z.ltb_spec 0 (counter (run_mutators wo others g'))) as [Hlt|_]; [lia|].
    rewrite wait_resume_returned, consumed_returned, app_nil_r.
    cbn [result gate_of trace fst snd counter].
    split; [done|]. split; [|split; [done|exact Hc']].
    unfold sleeps. rewrite count_if_app. fold (sleeps
      ([Lock; CvWait] ++ replicate (length env) CvWait)).
    rewrite Hs. rewrite (sleeps_relay wo). lia.
Qed.

(** X8.  The two waits differ only in what a premature wake-up does.
    They take the same first step; on a drained gate, and when the first
    wake-up finds [counter <= 0], they give the same result, gate and log;
    when the first wake-up finds [counter > 0], WaitOneWakeup returns
    [true] where WaitUntilZero is parked again. *)
Theorem WaitOneWakeup_agrees_with_WaitUntilZero
    (wo : bool) (others : list mutator) (env : list (list mutator)) (g : TLCounter) :
  wait_enter wo FnWaitOneWakeup g = wait_enter wo FnWaitUntilZero g /\
  (counter g <= 0 -> WaitOneWakeup wo env g = WaitUntilZero wo env g) /\
  (0 < counter g -> counter (run_mutators wo others g) <= 0 ->
     WaitOneWakeup wo (others :: env) g = WaitUntilZero wo (others :: env) g) /\
  (0 < counter g -> 0 < counter (run_mutators wo others g) ->
     result (WaitOneWakeup wo (others :: env) g) = Returned true /\
     result (WaitUntilZero wo [others] g) = Sleeping true).
Proof.
  assert (Hsame : wait_enter wo FnWaitOneWakeup g = wait_enter wo FnWaitUntilZero g).
  { by rewrite !wait_enter_eq. }
  unfold WaitOneWakeup, WaitUntilZero, wait_call.
  split; [done|]. split; [|split].
  - intros Hle. rewrite !(wait_enter_drained wo _ g Hle).
    by rewrite !wait_resume_returned.
  - intros Hpos Hle. rewrite Hsame, wait_enter_eq.
    destruct (Z.ltb_spec 0 (counter g)) as [_|]; [|lia].
    rewrite !wait_resume_sleeping. unfold wake_step. cbn [wait_wakeup].
    rewrite WaitUntilZero_wakeup_eq, WaitOneWakeup_wakeup_eq. cbv zeta.
    set (g0 := mkTLCounter (counter g) (int32 (numWaiters g + 1))).
    assert (Hc : counter (run_mutators wo others g0) = counter (run_mutators wo others g))
      by (by apply run_mutators_counter_ext).
    destruct (Z.ltb_spec 0 (counter (run_mutators wo others g0))) as [Hlt|_]; [lia|].
    by rewrite !wait_resume_returned.
  - intros Hpos Hpos'. rewrite Hsame, wait_enter_eq.
    destruct (Z.ltb_spec 0 (counter g)) as [_|]; [|lia].
    rewrite !wait_resume_sleeping. unfold wake_step. cbn [wait_wakeup].
    rewrite WaitUntilZero_wakeup_eq, WaitOneWakeup_wakeup_eq. cbv zeta.
    set (g0 := mkTLCounter (counter g) (int32 (numWaiters g + 1))).
    assert (Hc : counter (run_mutators wo others g0) = counter (run_mutators wo others g))
      by (by apply run_mutators_counter_ext).
    destruct (Z.ltb_spec 0 (counter (run_mutators wo others g0))) as [_|Hle]; [|lia].
    by rewrite wait_resume_returned.
Qed.

(** ** The pool *)

Section PoolExtras.
Variable wo : bool.

Lemma woken_between_insert p j f d j1 :
  woken_between p (<[j:=Woken f d]> p) j1 -> j1 = j.
Proof.
  intros (f' & d' & H1 & H2). destruct (decide (j1 = j)) as [|Hne]; [done|].
  rewrite list_lookup_insert_ne in H2 by done. congruence.
Qed.

Lemma woken_between_insert_other p i x p' j :
  (forall f d, p !! i <> Some (Parked f d)) ->
  woken_between p p' j -> woken_between (<[i:=x]> p) p' j.
Proof.
  intros Hnp (f & d & E1 & E2). exists f, d. split; [|done].
  rewrite list_lookup_insert_ne; [done|]. intros ->. by apply (Hnp f d).
Qed.

Lemma woken_between_refl p j : ~ woken_between p p j.
Proof. intros (f & d & H1 & H2). congruence. Qed.

(** A log with at most one wake and no [NotifyAll] wakes at most one
    thread. *)
Lemma deliver_at_most_one tr p p' j1 j2 :
  deliver tr p p' -> (wakes tr <= 1)%nat -> ~ In NotifyAll tr ->
  woken_between p p' j1 -> woken_between p p' j2 -> j1 = j2.
Proof.
  induction 1 as [p|e tr p p1 p2 He Hd IH]; intros Hw Hall H1 H2.
  - by destruct (woken_between_refl _ _ H1).
  - unfold wakes in Hw. cbn [count_if] in Hw.
    destruct He as [p j f d Hj|p Hn|p|e p He].
    + cbn in Hw. assert (Hs : wakes tr = 0%nat) by (unfold wakes; lia).
      rewrite (deliver_silent _ _ _ Hs Hd) in H1, H2.
      apply woken_between_insert in H1, H2. congruence.
    + cbn in Hw. assert (Hs : wakes tr = 0%nat) by (unfold wakes; lia).
      rewrite (deliver_silent _ _ _ Hs Hd) in H1.
      by destruct (woken_between_refl _ _ H1).
    + destruct Hall. by left.
    + rewrite He in Hw. apply IH; auto. intros Hin. apply Hall. by right.
Qed.

Lemma wake_one_sections :
  (forall op g, (wakes (trace (call_mutator true op g)) <= 1)%nat /\
                ~ In NotifyAll (trace (call_mutator true op g))) /\
  (forall f g, (wakes (trace (wait_enter true f g)) <= 1)%nat /\
               ~ In NotifyAll (trace (wait_enter true f g))) /\
  (forall f g, (wakes (trace (wait_wakeup true f g)) <= 1)%nat /\
               ~ In NotifyAll (trace (wait_wakeup true f g))).
Proof.
  assert (Hrel : forall g,
    (wakes (relay_trace true g ++ [Unlock]) <= 1)%nat /\
    ~ In NotifyAll (relay_trace true g ++ [Unlock])).
  { intros g. rewrite relay_trace_eq. destruct (0 <? numWaiters g); cbn;
      (split; [lia|intros H; intuition discriminate]). }
  split; [|split].
  - intros op g. rewrite call_mutator_eq. cbv zeta. cbn [trace snd].
    destruct op; cbn [delta];
      try (cbn; split; [lia|intros H; intuition discriminate]).
    + destruct (int32 (counter g + -1) <=? 0); cbn;
        (split; [lia|intros H; intuition discriminate]).
    + destruct (int32 (counter g + - count) <=? 0); cbn;
        (split; [lia|intros H; intuition discriminate]).
  - intros f g. rewrite wait_enter_eq. destruct (0 <? counter g); cbn [trace snd].
    + cbn. split; [lia|intros H; intuition discriminate].
    + destruct (Hrel g) as [H1 H2]. split; [exact H1|].
      intros [H|H]; [discriminate|by apply H2].
  - intros f g. destruct f; cbn [wait_wakeup].
    + rewrite WaitUntilZero_wakeup_eq. cbv zeta.
      destruct (0 <? counter g); cbn [trace snd]; [|apply Hrel].
      cbn. split; [lia|intros H; intuition discriminate].
    + rewrite WaitOneWakeup_wakeup_eq. cbv zeta. cbn [trace snd]. apply Hrel.
Qed.

End PoolExtras.

(** X10.  Under wake-one-with-relay no step wakes more than one thread:
    two threads that go from parked to woken in the same step are the same
    thread. *)
Theorem wake_one_wakes_at_most_one
    (w : World) (l : label) (w' : World) (j1 j2 : nat) :
  step true w l w' ->
  woken_between (pool w) (pool w') j1 ->
  woken_between (pool w) (pool w') j2 ->
  j1 = j2.
Proof.
  intros Hs H1 H2.
  destruct wake_one_sections as (Hmut & Henter & Hwake).
  destruct Hs as [w op p' Hok Hd|w i f t p' Hi Hc Hd|w i f d p' Hi Hd|w i f d Hi];
    cbn [pool] in *.
  - destruct (Hmut op (gate w)) as [Hw Hall].
    by apply (deliver_at_most_one _ _ _ j1 j2 Hd Hw Hall).
  - destruct (Henter f (gate w)) as [Hw Hall].
    assert (Hnp : forall f' d', pool w !! i <> Some (Parked f' d')).
    { intros f' d' E. rewrite Hi in E. injection E as ->. done. }
    apply (deliver_at_most_one _ _ _ j1 j2 Hd Hw Hall);
      by apply woken_between_insert_other.
  - destruct (Hwake f (gate w)) as [Hw Hall].
    assert (Hnp : forall f' d', pool w !! i <> Some (Parked f' d')).
    { intros f' d' E. rewrite Hi in E. discriminate. }
    apply (deliver_at_most_one _ _ _ j1 j2 Hd Hw Hall);
      by apply woken_between_insert_other.
  - apply woken_between_insert in H1, H2. congruence.
Qed.

Lemma parked_wake (p : list tstate) : parked (wake <$> p) = 0%nat.
Proof.
  unfold parked. induction p as [|t p IH]; cbn; [done|].
  rewrite IH. by destruct t.
Qed.

Lemma deliver_broadcast (p p' : list tstate) :
  deliver [Lock; NotifyAll; Unlock] p p' -> p' = wake <$> p.
Proof.
  intros H.
  inversion H as [|e1 tr1 q0 q1 q2 He1 Hd1]; subst.
  inversion He1; subst.
  inversion Hd1 as [|e2 tr2 r0 r1 r2 He2 Hd2]; subst.
  inversion He2 as [| |r|e r He]; subst; [|discriminate].
  inversion Hd2 as [|e3 tr3 s0 s1 s2 He3 Hd3]; subst.
  inversion He3; subst.
  inversion Hd3; subst. done.
Qed.

(** X11.  Under wake-all ([TL_WAKE_ONE = 0]) the Decrement or Subtract
    that leaves the counter [<= 0] wakes every parked thread in that very
    step: afterwards nobody is parked, each thread that was parked is
    woken inside the same call, and the other threads are as they were. *)
Theorem wake_all_drain_wakes_everyone (w : World) (op : mutator) (w' : World) :
  (op = OpDecrement \/ exists n, op = OpSubtract n) ->
  step false w (LMut op) w' ->
  drained w' ->
  pool w' = wake <$> pool w /\
  parked (pool w') = 0%nat /\
  (forall j f d, pool w !! j = Some (Parked f d) -> pool w' !! j = Some (Woken f d)) /\
  (forall j t, pool w !! j = Some t -> is_parked t = false -> pool w' !! j = Some t).
Proof.
  intros Hop Hs Hdr. inversion Hs as [w0 op0 p' Hok Hd| | |]; subst.
  unfold drained in Hdr. cbn [gate] in Hdr. rewrite call_mutator_counter in Hdr.
  rewrite call_mutator_eq in Hd. cbv zeta in Hd. cbn [trace snd] in Hd.
  assert (E : p' = wake <$> pool w).
  { apply deliver_broadcast.
    destruct (Z.leb_spec (int32 (counter (gate w) + delta op)) 0); [|lia].
    destruct Hop as [->|[n ->]]; exact Hd. }
  cbn [pool]. rewrite E. split; [done|]. split; [apply parked_wake|]. split.
  - intros j f d Hj. by rewrite list_lookup_fmap, Hj.
  - intros j t Hj Ht. rewrite list_lookup_fmap, Hj. by destruct t.
Qed.

(** X12.  A mutating call that leaves the counter positive wakes nobody,
    under either policy: the pool after its step is the pool before. *)
Theorem positive_counter_wakes_nobody
    (wo : bool) (w : World) (op : mutator) (w' : World) :
  step wo w (LMut op) w' ->
  0 < counter (gate w') ->
  pool w' = pool w /\ wakes (trace (call_mutator wo op (gate w))) = 0%nat.
Proof.
  intros Hs Hpos. inversion Hs as [w0 op0 p' Hok Hd| | |]; subst.
  cbn [gate pool] in *. rewrite call_mutator_counter in Hpos.
  assert (Hw : wakes (trace (call_mutator wo op (gate w))) = 0%nat).
  { rewrite call_mutator_eq. cbv zeta. cbn [trace snd].
    destruct (Z.leb_spec (int32 (counter (gate w) + delta op)) 0); [lia|].
    by destruct op. }
  split; [|done]. by eapply deliver_silent.
Qed.

(** X13.  Nobody goes to sleep on a drained gate: after a step taken
    with [counter <= 0], every parked thread was already parked, in the
    same call, before the step.  On a gate with [counter > 0] a wait call
    always parks its caller, registered in [numWaiters]. *)
Theorem sleep_only_on_positive_counter
    (wo : bool) (w : World) (l : label) (w' : World) :
  step wo w l w' ->
  (drained w ->
   forall j f d, pool w' !! j = Some (Parked f d) -> pool w !! j = Some (Parked f d)) /\
  (0 < counter (gate w) ->
   forall i f, l = LCall i f ->
     pool w' !! i = Some (Parked f false) /\
     numWaiters (gate w') = int32 (numWaiters (gate w) + 1) /\
     counter (gate w') = counter (gate w)).
Proof.
  intros Hs. split.
  - intros Hdr j f d Hj.
    assert (Hback : forall tr p0,
      deliver tr p0 (pool w') -> p0 !! j = Some (Parked f d)).
    { intros tr p0 Hd.
      destruct (deliver_lookup _ _ _ j Hd) as [E|(f' & d' & _ & E)]; congruence. }
    destruct Hs as [w op p' Hok Hd|w i f0 t p' Hi Hc Hd|w i f0 d0 p' Hi Hd|w i f0 d0 Hi];
      cbn [pool] in *.
    + by apply (Hback _ _ Hd).
    + specialize (Hback _ _ Hd). revert Hback.
      rewrite (wait_enter_drained wo f0 _ Hdr). cbn [result fst after]. intros Hb.
      apply list_lookup_insert_Some in Hb as [(_ & [=] & _)|(_ & Hb)]; done.
    + specialize (Hback _ _ Hd). revert Hback.
      rewrite (wait_wakeup_drained wo f0 _ Hdr). cbn [result fst after]. intros Hb.
      apply list_lookup_insert_Some in Hb as [(_ & [=] & _)|(_ & Hb)]; done.
    + apply list_lookup_insert_Some in Hj as [(_ & [=] & _)|(_ & Hj)]; done.
  - intros Hpos i f ->.
    destruct (step_call_self wo _ _ _ _ Hs) as [Hp Hg].
    revert Hp Hg. rewrite wait_enter_eq.
    destruct (Z.ltb_spec 0 (counter (gate w))) as [_|]; [|lia].
    cbn [result gate_of fst snd after]. intros Hp ->. done.
Qed.

(** ** The Windows branch *)

(** X14.  The two platform branches implement the same gate: the Windows
    constructor builds the gate the default member initialisers build,
    whatever the memory held, and every method of the Windows class, section
    by section, gives the result, the gate and the log of its portable
    counterpart. *)
Theorem Win_branch_agrees (wo : bool) (g : TLCounter) :
  gate_of (Win.TLCounter_ctor g) = TLCounter_new /\
  Win.Increment g = Increment g /\
  (Win.Decrement wo g = Decrement wo g /\
   forall n, Win.Add n g = Add n g /\ Win.Subtract wo n g = Subtract wo n g) /\
  (Win.WaitUntilZero_enter wo g = WaitUntilZero_enter wo g /\
   Win.WaitUntilZero_wakeup wo g = WaitUntilZero_wakeup wo g) /\
  (Win.WaitOneWakeup_enter wo g = WaitOneWakeup_enter wo g /\
   Win.WaitOneWakeup_wakeup wo g = WaitOneWakeup_wakeup wo g).
Proof.
  assert (Hsub : forall n, Win.Subtract wo n g = Subtract wo n g).
  { intros n. rewrite Subtract_eq.
    unfold Win.Subtract, Win.wake_waiters, notify_ev, when, mbind, crit_bind,
      read_counter, write_counter, emit, mret, crit_ret; cbn.
    destruct (int32 (counter g - n) <=? 0), wo; reflexivity. }
  split; [reflexivity|]. split; [reflexivity|]. split; [split|split].
  - apply (Hsub 1).
  - intros n. split; [reflexivity|apply Hsub].
  - split; reflexivity.
  - split; reflexivity.
Qed.

(** ** The further properties on concrete inputs *)

(** Two threads parked under wake-all; the draining Decrement wakes both. *)
Example two_waiters_broadcast :
  step false
    (mkWorld (mkTLCounter 1 2) [Parked FnWaitUntilZero false; Parked FnWaitOneWakeup false])
    (LMut OpDecrement)
    (mkWorld (mkTLCounter 0 2) [Woken FnWaitUntilZero false; Woken FnWaitOneWakeup false]).
Proof.
  apply (step_mut_to false _ OpDecrement (mkTLCounter 0 2) [Lock; NotifyAll; Unlock]);
    [done|reflexivity|].
  econstructor; [by apply cv_other|].
  econstructor; [apply cv_notify_all|].
  by apply deliver_quiet.
Qed.

(** A Decrement from 2 to 1 with a thread parked. *)
Example one_waiter_not_drained :
  step true (mkWorld (mkTLCounter 2 1) [Parked FnWaitUntilZero false])
    (LMut OpDecrement)
    (mkWorld (mkTLCounter 1 1) [Parked FnWaitUntilZero false]).
Proof.
  apply (step_mut_to true _ OpDecrement (mkTLCounter 1 1) [Lock; Unlock]);
    [done|reflexivity|by apply deliver_quiet].
Qed.

(** A thread calls WaitOneWakeup on a gate with counter 1. *)
Example one_thread_calls :
  step true (mkWorld (mkTLCounter 1 0) [Idle]) (LCall 0 FnWaitOneWakeup)
    (mkWorld (mkTLCounter 1 1) [Parked FnWaitOneWakeup false]).
Proof.
  apply (step_call_to true (mkWorld (mkTLCounter 1 0) [Idle]) 0 FnWaitOneWakeup Idle
           (Sleeping false) (mkTLCounter 1 1) [Lock; CvWait]);
    [reflexivity|reflexivity|reflexivity|by apply deliver_quiet].
Qed.

Lemma Increment_returns_new_counter_witness :
  in_int32 (counter (mkTLCounter INT32_MAX 3)) /\
  result (Increment (mkTLCounter INT32_MAX 3)) = INT32_MIN /\
  numWaiters (gate_of (Increment (mkTLCounter INT32_MAX 3))) = 3.
Proof.
  assert (H : in_int32 (counter (mkTLCounter INT32_MAX 3))).
  { unfold in_int32, INT32_MIN, INT32_MAX. simpl. lia. }
  split; [exact H|].
  pose proof (Increment_returns_new_counter (mkTLCounter INT32_MAX 3) H)
    as (_ & _ & E & En & _).
  split; [exact (E eq_refl)|exact En].
Defined.

(** Add(INT32_MAX) on counter 5 wraps; Subtract(INT32_MAX) brings 5 back. *)
Lemma Add_Subtract_round_trip_witness :
  in_int32 (counter (mkTLCounter 5 1)) /\
  counter (gate_of (Add INT32_MAX (mkTLCounter 5 1))) < 0 /\
  gate_of (Subtract true INT32_MAX (gate_of (Add INT32_MAX (mkTLCounter 5 1))))
  = mkTLCounter 5 1.
Proof.
  assert (H : in_int32 (counter (mkTLCounter 5 1))).
  { unfold in_int32, INT32_MIN, INT32_MAX. simpl. lia. }
  split; [exact H|]. split; [by vm_compute|].
  exact (proj1 (Add_Subtract_round_trip true INT32_MAX (mkTLCounter 5 1) H)).
Defined.

Lemma Subtract_negated_is_Add_with_wake_witness :
  in_int32 (counter (mkTLCounter (-4) 2)) /\
  gate_of (Subtract true 0 (mkTLCounter (-4) 2)) = mkTLCounter (-4) 2 /\
  wakes (trace (Subtract true 0 (mkTLCounter (-4) 2))) = 1%nat.
Proof.
  assert (H : in_int32 (counter (mkTLCounter (-4) 2))).
  { unfold in_int32, INT32_MIN, INT32_MAX. simpl. lia. }
  split; [exact H|].
  pose proof (Subtract_negated_is_Add_with_wake true 0 (mkTLCounter (-4) 2))
    as (_ & _ & _ & _ & E).
  destruct (E H) as [E1 E2]. split; [exact E1|]. rewrite E2. reflexivity.
Defined.

Lemma run_mutators_is_one_Add_witness :
  in_int32 (counter (mkTLCounter 10 1)) /\
  run_mutators true [OpDecrement; OpAdd 4; OpSubtract 20; OpIncrement] (mkTLCounter 10 1)
  = mkTLCounter (-6) 1.
Proof.
  assert (H : in_int32 (counter (mkTLCounter 10 1))).
  { unfold in_int32, INT32_MIN, INT32_MAX. simpl. lia. }
  split; [exact H|].
  rewrite (proj1 (run_mutators_is_one_Add true
             [OpDecrement; OpAdd 4; OpSubtract 20; OpIncrement] (mkTLCounter 10 1) H)).
  reflexivity.
Defined.

Lemma mutators_never_block_witness :
  wakes (trace (call_mutator true OpDecrement (mkTLCounter 1 0))) = 1%nat /\
  counter (gate_of (call_mutator true OpDecrement (mkTLCounter 1 0))) <= 0.
Proof.
  split; [reflexivity|].
  exact (proj2 (proj2 (proj2 (proj2 (proj2 (proj2 (proj2
           (mutators_never_block true OpDecrement (mkTLCounter 1 0))))))) eq_refl)).
Defined.

Lemma waits_notify_only_by_relay_witness :
  result (wait_call false FnWaitUntilZero [[OpDecrement]] (mkTLCounter 1 4))
    = Returned true /\
  wakes (trace (wait_call false FnWaitUntilZero [[OpDecrement]] (mkTLCounter 1 4)))
    = 0%nat /\
  last (trace (wait_call false FnWaitUntilZero [[OpDecrement]] (mkTLCounter 1 4)))
    = Some Unlock.
Proof.
  pose proof (waits_notify_only_by_relay false FnWaitUntilZero [[OpDecrement]]
                (mkTLCounter 1 4)) as (_ & _ & _ & Hw & _ & Hr).
  split; [reflexivity|]. split; [exact (Hw eq_refl)|].
  exact (proj1 (Hr true eq_refl)).
Defined.

(** Counter 2: the first wake-up follows one Decrement and is premature,
    the second follows another and finds the gate drained. *)
Lemma WaitUntilZero_sleeps_until_first_drained_witness :
  0 < counter (mkTLCounter 2 0) /\
  premature true [[OpDecrement]] (mkTLCounter 2 0) /\
  counter (run_mutators true (concat [[OpDecrement]] ++ [OpDecrement]) (mkTLCounter 2 0))
    <= 0 /\
  result (WaitUntilZero true ([[OpDecrement]] ++ [OpDecrement] :: [[OpIncrement]])
            (mkTLCounter 2 0)) = Returned true /\
  sleeps (trace (WaitUntilZero true ([[OpDecrement]] ++ [OpDecrement] :: [[OpIncrement]])
                   (mkTLCounter 2 0))) = 2%nat.
Proof.
  assert (H1 : 0 < counter (mkTLCounter 2 0)) by (simpl; lia).
  assert (H2 : premature true [[OpDecrement]] (mkTLCounter 2 0)).
  { split; [by vm_compute|exact I]. }
  assert (H3 : counter (run_mutators true (concat [[OpDecrement]] ++ [OpDecrement])
                          (mkTLCounter 2 0)) <= 0) by (by vm_compute).
  split; [exact H1|]. split; [exact H2|]. split; [exact H3|].
  destruct (proj2 (WaitUntilZero_sleeps_until_first_drained true [[OpDecrement]]
                     [OpDecrement] [[OpIncrement]] (mkTLCounter 2 0) H1 H2) H3)
    as (E1 & E2 & _).
  split; [exact E1|exact E2].
Defined.

Lemma WaitOneWakeup_agrees_with_WaitUntilZero_witness :
  0 < counter (mkTLCounter 1 0) /\
  counter (run_mutators true [OpDecrement] (mkTLCounter 1 0)) <= 0 /\
  WaitOneWakeup true ([OpDecrement] :: []) (mkTLCounter 1 0)
  = WaitUntilZero true ([OpDecrement] :: []) (mkTLCounter 1 0).
Proof.
  assert (H1 : 0 < counter (mkTLCounter 1 0)) by (simpl; lia).
  assert (H2 : counter (run_mutators true [OpDecrement] (mkTLCounter 1 0)) <= 0)
    by (by vm_compute).
  split; [exact H1|]. split; [exact H2|].
  exact (proj1 (proj2 (proj2 (WaitOneWakeup_agrees_with_WaitUntilZero true
           [OpDecrement] [] (mkTLCounter 1 0)))) H1 H2).
Defined.

Lemma wake_one_wakes_at_most_one_witness :
  woken_between [Parked FnWaitUntilZero false] [Woken FnWaitUntilZero false] 0 /\
  0%nat = 0%nat.
Proof.
  assert (H : woken_between [Parked FnWaitUntilZero false]
                [Woken FnWaitUntilZero false] 0).
  { exists FnWaitUntilZero, false. split; reflexivity. }
  split; [exact H|].
  exact (wake_one_wakes_at_most_one _ _ _ 0 0 one_waiter_drained H H).
Defined.

Lemma wake_all_drain_wakes_everyone_witness :
  drained (mkWorld (mkTLCounter 0 2)
             [Woken FnWaitUntilZero false; Woken FnWaitOneWakeup false]) /\
  parked (pool (mkWorld (mkTLCounter 0 2)
                  [Woken FnWaitUntilZero false; Woken FnWaitOneWakeup false])) = 0%nat.
Proof.
  assert (Hdr : drained (mkWorld (mkTLCounter 0 2)
                  [Woken FnWaitUntilZero false; Woken FnWaitOneWakeup false])).
  { unfold drained. simpl. lia. }
  split; [exact Hdr|].
  exact (proj1 (proj2 (wake_all_drain_wakes_everyone _ OpDecrement _
           (or_introl eq_refl) two_waiters_broadcast Hdr))).
Defined.

Lemma positive_counter_wakes_nobody_witness :
  0 < counter (gate (mkWorld (mkTLCounter 1 1) [Parked FnWaitUntilZero false])) /\
  pool (mkWorld (mkTLCounter 1 1) [Parked FnWaitUntilZero false])
  = pool (mkWorld (mkTLCounter 2 1) [Parked FnWaitUntilZero false]).
Proof.
  assert (H : 0 < counter (gate (mkWorld (mkTLCounter 1 1)
                                   [Parked FnWaitUntilZero false]))) by (simpl; lia).
  split; [exact H|].
  exact (proj1 (positive_counter_wakes_nobody true _ OpDecrement _
           one_waiter_not_drained H)).
Defined.

Lemma sleep_only_on_positive_counter_witness :
  0 < counter (gate (mkWorld (mkTLCounter 1 0) [Idle])) /\
  pool (mkWorld (mkTLCounter 1 1) [Parked FnWaitOneWakeup false]) !! 0%nat
  = Some (Parked FnWaitOneWakeup false).
Proof.
  assert (H : 0 < counter (gate (mkWorld (mkTLCounter 1 0) [Idle]))) by (simpl; lia).
  split; [exact H|].
  exact (proj1 (proj2 (sleep_only_on_positive_counter true _ _ _ one_thread_calls)
                  H 0%nat FnWaitOneWakeup eq_refl)).
Defined.

(** ** The guarantee of the class comment *)

Lemma exec_well_invariant (wo : bool) (N : nat) (w w' : World) :
  Z.of_nat N <= INT32_MAX ->
  exec_well wo w w' ->
  accounted N w /\ (drained w -> chain_ok wo w) ->
  accounted N w' /\ (drained w' -> chain_ok wo w').
Proof.
  intros HN H; induction H as [w|w w1 l w2 H IH Hu Hs]; [done|].
  intros Hw. destruct (IH Hw) as [Hacc Hch].
  split; [by eapply accounted_step|].
  intros Hdr2. destruct (Z.le_gt_cases (counter (gate w1)) 0) as [Hdr1|Hpos].
  - eapply chain_step; [exact HN|exact Hacc|by apply Hch|exact Hdr1|exact Hs].
  - unfold drained in Hdr2. rewrite (step_counter wo _ _ _ Hs) in Hdr2.
    destruct l as [op|i f|i|i]; try lia.
    destruct Hu as [Hr Hadd]. rewrite (int32_id _ Hr) in Hdr2.
    assert (Hop : op = OpDecrement \/ exists n, op = OpSubtract n).
    { destruct op as [| |n|n]; cbn [delta] in Hdr2.
      - lia.
      - by left.
      - specialize (Hadd n eq_refl). lia.
      - right. by exists n. }
    eapply chain_established; [exact Hop|exact Hs|].
    unfold drained. rewrite (step_counter wo _ _ _ Hs), (int32_id _ Hr). exact Hdr2.
Qed.

(** X15.  [While counter value is <= 0 no thread can stay asleep]: in
    every state a pool reaches from the constructed gate by steps that keep
    the counter inside [int32_t] and give Add amounts [>= 0], if the
    counter is [<= 0] then a parked thread is never left without a woken
    one to carry the wake chain (wake-one), and nobody is parked at all
    under wake-all. *)
Theorem no_thread_stays_asleep_on_drained_gate (wo : bool) (N : nat) (w : World) :
  Z.of_nat N <= INT32_MAX ->
  exec_well wo (init N) w ->
  drained w ->
  (some_parked (pool w) -> some_woken (pool w)) /\
  (wo = false -> ~ some_parked (pool w)).
Proof.
  intros HN Hex Hdr.
  destruct (exec_well_invariant wo N _ _ HN Hex) as [_ Hch].
  { split; [apply accounted_init|]. intros _. unfold chain_ok. cbn [init pool].
    assert (Hnone : ~ some_parked (replicate N Idle)).
    { intros (j & f & d & Hj). apply lookup_replicate in Hj as [Hj _]. discriminate. }
    destruct wo; [by intros Hp|done]. }
  specialize (Hch Hdr). unfold chain_ok in Hch. destruct wo.
  - split; [done|discriminate].
  - split; [by intros Hp|by intros _].
Qed.

(** The constructed gate, one Increment, a WaitUntilZero that parks, and
    the Decrement that drains the gate. *)
Example well_used_run :
  exec_well true (init 1)
    (mkWorld (mkTLCounter 0 1) [Woken FnWaitUntilZero false]).
Proof.
  eapply exec_well_step; [eapply exec_well_step; [eapply exec_well_step;
    [apply exec_well_refl| |]| |]| |exact one_waiter_drained].
  - instantiate (1 := LMut OpIncrement). split; [|discriminate].
    unfold in_int32, INT32_MIN, INT32_MAX. simpl. lia.
  - apply (step_mut_to true (init 1) OpIncrement (mkTLCounter 1 0) [Lock; Unlock] [Idle]);
      [done|reflexivity|by apply deliver_quiet].
  - instantiate (1 := LCall 0 FnWaitUntilZero). exact I.
  - apply (step_call_to true (mkWorld (mkTLCounter 1 0) [Idle]) 0 FnWaitUntilZero Idle
             (Sleeping false) (mkTLCounter 1 1) [Lock; CvWait]);
      [reflexivity|reflexivity|reflexivity|by apply deliver_quiet].
  - split; [|discriminate]. unfold in_int32, INT32_MIN, INT32_MAX. simpl. lia.
Qed.

Lemma no_thread_stays_asleep_on_drained_gate_witness :
  Z.of_nat 1 <= INT32_MAX /\
  drained (mkWorld (mkTLCounter 0 1) [Woken FnWaitUntilZero false]) /\
  (some_parked [Woken FnWaitUntilZero false] ->
   some_woken [Woken FnWaitUntilZero false]).
Proof.
  assert (HN : Z.of_nat 1 <= INT32_MAX) by (unfold INT32_MAX; simpl; lia).
  assert (Hdr : drained (mkWorld (mkTLCounter 0 1) [Woken FnWaitUntilZero false]))
    by (unfold drained; simpl; lia).
  split; [exact HN|]. split; [exact Hdr|].
  exact (proj1 (no_thread_stays_asleep_on_drained_gate true 1 _ HN well_used_run Hdr)).
Defined.
